(** * impostor-game: the game store

    A shallow embedding of [store/game-store.ts] (the version with game
    variants): the random source, the Fisher-Yates shuffle, the selection
    of unique indices, the role assignment of [startNewGame], the category
    store with its derived [mixta] category, and the persistence of the
    game configuration.

    How the JavaScript is rendered:
    - integers held in a [number] are [Z]; the few places where the code can
      produce [NaN] or an infinity use the type [number];
    - [Math.random() * max] is IEEE-754 binary64 multiplication, taken from
      the standard library's [SpecFloat] ([prec = 53], [emax = 1024]);
    - an [await]ed call is a state-passing function; the entropy consumed by
      [secureRandom] and the behaviour of AsyncStorage are explicit inputs;
    - an object used as a dictionary ([CATEGORIES], a parsed JSON object) is
      a list of its own properties in enumeration order; a read
      [CATEGORIES[key]] or [DEFAULT_CATEGORIES[key]] also sees what the
      object inherits from [Object.prototype], and an assignment to the key
      ["__proto__"] replaces the prototype;
    - category objects and their word arrays live in a heap, because the
      code shares them between [CATEGORIES] and [DEFAULT_CATEGORIES] and
      updates them in place;
    - a run that throws, or that would store [undefined] in an array of
      numbers or of player names, has no result ([None]).

    What is left out: logging ([debugLog], [persistLogs]), which has no
    effect on the store; the properties of a stored category other than
    [emoji], [name], [words] and [isCustom], which the code carries along
    untouched; and whatever a storage call that outlived its timer does
    after the function has returned. [Object.prototype] is taken to have
    the members that ECMAScript gives it, and no others. *)

From Stdlib Require Import ZArith Lia String Ascii Strings.Byte SpecFloat.
From stdpp Require Import base option list gmap strings pretty.

Local Open Scope string_scope.
Local Open Scope list_scope.
Local Open Scope Z_scope.

(** ** JavaScript numbers *)

(** The [number] values this code computes with. *)
Inductive number :=
  | Int (z : Z)
  | NaN
  | Infinity (negative : bool).

(** [Math.floor] on a binary64 value. A negative zero is rendered as [0]. *)
Definition Math_floor (x : spec_float) : number :=
  match x with
  | S754_zero _ => Int 0
  | S754_infinity s => Infinity s
  | S754_nan => NaN
  | S754_finite s m e => Int (Z.shiftl (if s then Zneg m else Zpos m) e)
  end.

(** The binary64 value of an integer-valued [number]. *)
Definition Number_of_Z (z : Z) : spec_float := binary_normalize 53 1024 z 0 false.

(** [a % b] for integers [a] and [b]: the remainder has the sign of [a];
    a zero divisor gives [NaN]. *)
Definition js_rem (a b : Z) : number :=
  if decide (b = 0) then NaN else Int (Z.rem a b).

(** [arr[i]]: [None] is [undefined]. *)
Definition at_index {A} (arr : list A) (i : number) : option A :=
  match i with
  | Int z => if decide (0 <= z) then arr !! Z.to_nat z else None
  | _ => None
  end.

(** Largest length of a JavaScript array, 2^32 - 1. *)
Definition MAX_ARRAY_LENGTH : Z := 4294967295.

(** ** The entropy consumed by [secureRandom] *)

(** What [withTimeout(Crypto.getRandomBytesAsync(4), 2000, null)] settles to. *)
Inductive CryptoResult :=
  | Bytes (randomBytes : list byte)  (* resolved in time *)
  | TimedOut                         (* the timer won: [null] *)
  | Rejected.                        (* the call threw or the promise rejected *)

(** One call of [secureRandom] meets one [Draw]: the outcome of the secure
    generator and the value [Math.random()] would return. Every binary64
    value in [0, 1) is [(m mod 2^53) * 2^(-53 - j)] for some [m] and some
    [j <= 1021], so every [Draw] is a possible one. *)
Record Draw := {
  crypto : CryptoResult;
  random_mantissa : Z;
  random_scale : nat;
}.

Definition Math_random (d : Draw) : spec_float :=
  binary_normalize 53 1024 (random_mantissa d mod 2 ^ 53)
    (- 53 - Z.of_nat (Nat.min (random_scale d) 1021)) false.

Definition Entropy := nat -> Draw.

Definition rest (e : Entropy) : Entropy := fun n => e (S n).

(** [new DataView(randomBytes.buffer).getUint32(0, true)]: the first four
    bytes, little-endian; a shorter buffer raises a RangeError ([None]). *)
Definition getUint32_le (buffer : list byte) : option Z :=
  match buffer with
  | b0 :: b1 :: b2 :: b3 :: _ =>
      Some (Z.of_N (Byte.to_N b0) + 256 * Z.of_N (Byte.to_N b1)
            + 65536 * Z.of_N (Byte.to_N b2) + 16777216 * Z.of_N (Byte.to_N b3))
  | _ => None
  end.

(** ** [secureRandom] *)

Definition secureRandom_fallback (max : Z) (d : Draw) : number :=
  Math_floor (SFmul 53 1024 (Math_random d) (Number_of_Z max)).

Definition secureRandom (max : Z) (e : Entropy) : number * Entropy :=
  let d := e 0%nat in
  match crypto d with
  | Bytes randomBytes =>
      match getUint32_le randomBytes with
      | Some randomValue => (js_rem randomValue max, rest e)
      | None => (secureRandom_fallback max d, rest e)   (* caught RangeError *)
      end
  | TimedOut | Rejected => (secureRandom_fallback max d, rest e)
  end.

(** ** Computations that draw random numbers *)

Definition M (A : Type) : Type := Entropy -> option (A * Entropy).

Definition ret {A} (a : A) : M A := fun e => Some (a, e).

Definition bind {A B} (m : M A) (k : A -> M B) : M B :=
  fun e => match m e with
           | Some (a, e') => k a e'
           | None => None
           end.

Definition throw {A} : M A := fun _ => None.

Definition await {A} (f : Entropy -> A * Entropy) : M A := fun e => Some (f e).

Definition defined {A} (o : option A) : M A :=
  match o with Some a => ret a | None => throw end.

Notation "'let*' x ':=' m 'in' k" := (bind m (fun x => k))
  (at level 10, x name, m at level 100, k at level 200).

(** ** [shuffleArray] *)

(** [[a[i], a[j]] = [a[j], a[i]]]: both reads, then the write to [a[i]],
    then the write to [a[j]]. A read outside the array gives [undefined],
    which the typed array cannot hold. *)
Definition swap {T} (a : list T) (i : nat) (j : number) : option (list T) :=
  match at_index a j, a !! i, j with
  | Some aj, Some ai, Int z => Some (<[Z.to_nat z := ai]> (<[i := aj]> a))
  | _, _, _ => None
  end.

(** The loop [for (let i = ...; i > 0; i--)], entered with the counter at [i]. *)
Fixpoint shuffle_from {T} (i : nat) (shuffled : list T) : M (list T) :=
  match i with
  | O => ret shuffled
  | S i' =>
      let* j := await (secureRandom (Z.of_nat i + 1)) in
      let* shuffled' := defined (swap shuffled i j) in
      shuffle_from i' shuffled'
  end.

Definition shuffleArray {T} (array : list T) : M (list T) :=
  let shuffled := array in                     (* [...array] *)
  shuffle_from (length shuffled - 1) shuffled.

(** The same function on arrays that live in a heap: [[...array]] is a new
    array, the swaps go to it, and it is the array returned. *)
Definition shuffleArray_ref {T} (array : nat) (heap : gmap nat (list T))
  : M (nat * gmap nat (list T)) :=
  let* contents := defined (heap !! array) in
  let shuffled := fresh (dom heap) in
  let* result := shuffleArray contents in
  ret (shuffled, <[shuffled := result]> heap).

(** ** [selectUniqueIndices] *)

(** [Array.from({ length: max }, (_, i) => i)]; a length above 2^32 - 1
    raises a RangeError. *)
Definition Array_from_length (max : Z) : option (list Z) :=
  if decide (max <= MAX_ARRAY_LENGTH)
  then Some (Z.of_nat <$> seq 0 (Z.to_nat max))
  else None.

(** The loop [for (let i = 0; i < count && available.length > 0; i++)],
    with [remaining] iterations of the counter left. *)
Fixpoint select_loop (remaining : nat) (indices available : list Z) : M (list Z) :=
  match remaining with
  | O => ret indices
  | S remaining' =>
      match available with
      | [] => ret indices
      | _ :: _ =>
          let* randomPos := await (secureRandom (Z.of_nat (length available))) in
          let* picked := defined (at_index available randomPos) in
          let available' :=
            match randomPos with
            | Int p => delete (Z.to_nat p) available     (* splice(randomPos, 1) *)
            | _ => available
            end in
          select_loop remaining' (indices ++ [picked]) available'
      end
  end.

Definition selectUniqueIndices (count max : Z) (exclude : list Z) : M (list Z) :=
  let* all := defined (Array_from_length max) in
  let available := filter (fun i => i ∉ exclude) all in
  select_loop (Z.to_nat count) [] available.

(** ** Objects used as dictionaries

    The properties of an object in the order [Object.entries] lists them:
    array-index keys first, in ascending order, then the other keys in the
    order they were added. *)

Definition digit_of (c : ascii) : option N :=
  let n := N_of_ascii c in
  if ((48 <=? n) && (n <=? 57))%N then Some (n - 48)%N else None.

Fixpoint digits_value (s : string) (acc : N) : option N :=
  match s with
  | EmptyString => Some acc
  | String c s' =>
      match digit_of c with
      | Some d => digits_value s' (10 * acc + d)%N
      | None => None
      end
  end.

(** A key is an array index when it is the canonical decimal form of an
    integer of [[0, 2^32 - 2]]. *)
Definition array_index (key : string) : option N :=
  match key with
  | EmptyString => None
  | String c s' =>
      if bool_decide (c = "0"%char) && negb (bool_decide (s' = EmptyString)) then None
      else match digits_value key 0 with
           | Some n => if (n <=? 4294967294)%N then Some n else None
           | None => None
           end
  end.

(** A new property [key] is listed before the existing property [other]. *)
Definition goes_before (key other : string) : bool :=
  match array_index key, array_index other with
  | Some n, Some m => (n <? m)%N
  | Some _, None => true
  | None, _ => false
  end.

Section Props.
Context {V : Type}.

Fixpoint prop_get (key : string) (o : list (string * V)) : option V :=
  match o with
  | [] => None
  | (k, v) :: o' => if decide (k = key) then Some v else prop_get key o'
  end.

Fixpoint prop_replace (key : string) (v : V) (o : list (string * V)) : list (string * V) :=
  match o with
  | [] => []
  | (k, w) :: o' => if decide (k = key) then (k, v) :: o' else (k, w) :: prop_replace key v o'
  end.

Fixpoint prop_insert (key : string) (v : V) (o : list (string * V)) : list (string * V) :=
  match o with
  | [] => [(key, v)]
  | (k, w) :: o' =>
      if goes_before key k then (key, v) :: o else (k, w) :: prop_insert key v o'
  end.

(** The own property [key] of [o] set to [v], as a property of an object
    literal, a spread, [JSON.parse], or an assignment to a key that
    reaches no setter does it. *)
Definition prop_set (key : string) (v : V) (o : list (string * V)) : list (string * V) :=
  match prop_get key o with
  | Some _ => prop_replace key v o
  | None => prop_insert key v o
  end.

(** [o[key] = v] for an object [v] and any key. Without an own property
    of that name the key ["__proto__"] reaches the setter that
    [Object.prototype] provides: the prototype of [o] is replaced and [o]
    gets no property. *)
Definition prop_assign (key : string) (v : V) (o : list (string * V)) : list (string * V) :=
  match prop_get key o with
  | Some _ => prop_replace key v o
  | None => if decide (key = "__proto__") then o else prop_insert key v o
  end.

(** [delete o[key]] *)
Definition prop_delete (key : string) (o : list (string * V)) : list (string * V) :=
  filter (fun kv => kv.1 <> key) o.

(** [{ ...o1, ...o2 }] *)
Definition spread (o1 o2 : list (string * V)) : list (string * V) :=
  foldl (fun acc kv => prop_set kv.1 kv.2 acc) o1 o2.
End Props.

(** ** JSON values *)

Unset Elimination Schemes.
Inductive Json :=
  | JNull
  | JBool (b : bool)
  | JNumber (x : spec_float)
  | JString (s : string)
  | JArray (items : list Json)
  | JObject (props : list (string * Json)).
Set Elimination Schemes.

(** [!!v] *)
Definition truthy (v : Json) : bool :=
  match v with
  | JNull => false
  | JBool b => b
  | JNumber (S754_zero _) | JNumber S754_nan => false
  | JNumber _ => true
  | JString s => negb (bool_decide (s = ""))
  | JArray _ | JObject _ => true
  end.

(** [typeof v === 'object'] *)
Definition typeof_object (v : Json) : bool :=
  match v with
  | JNull | JArray _ | JObject _ => true
  | _ => false
  end.

(** [typeof v === 'string'], for a property that may be missing. *)
Definition typeof_string (v : option Json) : bool :=
  match v with
  | Some (JString _) => true
  | _ => false
  end.

(** [v[key]] for the property names this code reads; none of them is a
    property of an array. [None] is [undefined]. *)
Definition json_get (key : string) (v : Json) : option Json :=
  match v with
  | JObject props => prop_get key props
  | _ => None
  end.

(** [Object.entries(v)] of an object or an array. *)
Definition Object_entries (v : Json) : list (string * Json) :=
  match v with
  | JObject props => props
  | JArray items => imap (fun i item => (pretty i, item)) items
  | _ => []
  end.

Definition Object_values (v : Json) : list Json := (Object_entries v).*2.

(** [Array.isArray(v) && v.every(w => typeof w === 'string')] *)
Definition is_string_array (v : option Json) : bool :=
  match v with
  | Some (JArray items) => forallb (fun w => typeof_string (Some w)) items
  | _ => false
  end.

(** The value [JSON.parse(JSON.stringify(v))]: a number that is not finite
    is written as [null], and a negative zero as [0]. *)
Fixpoint JSON_written (v : Json) : Json :=
  match v with
  | JNumber S754_nan | JNumber (S754_infinity _) => JNull
  | JNumber (S754_zero _) => JNumber (S754_zero false)
  | JArray items => JArray (List.map JSON_written items)
  | JObject props =>
      JObject (List.map (fun kv => let (k, w) := kv : string * Json in (k, JSON_written w))
                        props)
  | _ => v
  end.

(** ** AsyncStorage *)

(** A stored text, described by what [JSON.parse] makes of it. *)
Inductive Blob :=
  | Unparseable (text : string)   (* [JSON.parse] throws; the empty text is one *)
  | JsonText (value : Json).      (* [JSON.parse] returns [value] *)

Definition JSON_stringify (v : Json) : Blob := JsonText (JSON_written v).

Definition JSON_parse (json : Blob) : option Json :=
  match json with
  | JsonText value => Some value
  | Unparseable _ => None
  end.

(** How a call to AsyncStorage ends, seen through [withTimeout]. *)
Inductive IOOutcome :=
  | Completes    (* the promise resolves before the timer *)
  | Rejects      (* the promise rejects *)
  | Hangs.       (* the timer fires first; the call has had no effect yet *)

Record AsyncStorage := {
  items : gmap string Blob;
  outcomes : nat -> IOOutcome;     (* of the coming calls, in order *)
}.

Definition next_call (st : AsyncStorage) (items' : gmap string Blob) : AsyncStorage :=
  {| items := items'; outcomes := fun n => outcomes st (S n) |}.

Definition STORAGE_KEY : string := "impostor_game_v1".
Definition CUSTOM_CATEGORIES_KEY : string := "impostor_custom_categories_v1".

Definition safeStorageGet (key : string) (st : AsyncStorage) : option Blob * AsyncStorage :=
  match outcomes st 0%nat with
  | Completes => (items st !! key, next_call st (items st))
  | Rejects | Hangs => (None, next_call st (items st))
  end.

Definition safeStorageSet (key : string) (value : Blob) (st : AsyncStorage)
  : bool * AsyncStorage :=
  match outcomes st 0%nat with
  | Completes => (true, next_call st (<[key := value]> (items st)))
  | Rejects => (false, next_call st (items st))
  | Hangs => (true, next_call st (items st))
  end.

Definition safeStorageRemove (key : string) (st : AsyncStorage) : bool * AsyncStorage :=
  match outcomes st 0%nat with
  | Completes => (true, next_call st (delete key (items st)))
  | Rejects => (false, next_call st (items st))
  | Hangs => (true, next_call st (items st))
  end.

(** [!json] for a stored text: only the empty text is falsy. *)
Definition is_empty_text (json : Blob) : bool :=
  match json with
  | Unparseable text => bool_decide (text = "")
  | JsonText _ => false
  end.

Definition safeJsonParse (json : option Blob) (validator : Json -> bool) : option Json :=
  match json with
  | None => None
  | Some text =>
      if is_empty_text text then None
      else match JSON_parse text with
           | Some parsed => if negb (validator parsed) then None else Some parsed
           | None => None                                  (* caught SyntaxError *)
           end
  end.

(** ** The category store *)

(** The literal [DEFAULT_CATEGORIES]: key, emoji, name, words. *)
Definition DEFAULT_CATEGORIES_literal : list (string * (string * string * list string)) :=
  [ ("mixta", ("🎲", "Mixta",
      []));
    ("lugares", ("📍", "Lugares",
      ["Playa"; "Submarino"; "Escuela"; "Circo"; "Banco"; "Avión"; "Hospital";
       "Base Militar"; "Supermercado"; "Hotel"; "Restaurante"; "Aeropuerto";
       "Parque"; "Castillo"; "Museo"; "Cárcel"; "Estadio"; "Biblioteca"; "Cine";
       "Teatro"; "Gimnasio"; "Iglesia"; "Cementerio"; "Zoológico"; "Acuario";
       "Casino"; "Discoteca"; "Spa"; "Oficina"; "Fábrica"]));
    ("comida", ("🍕", "Comida",
      ["Hamburguesa"; "Sushi"; "Pizza"; "Tacos"; "Helado"; "Ensalada"; "Pastas";
       "Sopa"; "Empanada"; "Hot Dog"; "Arroz"; "Pollo"; "Pan"; "Queso";
       "Pastel"; "Galletas"; "Chocolate"; "Cereal"; "Nachos"; "Burrito";
       "Paella"; "Ceviche"; "Ramen"; "Curry"; "Fondue"; "Croissant"; "Waffles";
       "Pancakes"; "Donas"; "Churros"]));
    ("animales", ("🦁", "Animales",
      ["Perro"; "Gato"; "Elefante"; "Tiburón"; "Águila"; "Serpiente";
       "Pingüino"; "León"; "Tigre"; "Mono"; "Delfín"; "Ballena"; "Caballo";
       "Oso"; "Zorro"; "Lobo"; "Canguro"; "Koala"; "Jirafa"; "Rinoceronte";
       "Hipopótamo"; "Cocodrilo"; "Tortuga"; "Pulpo"; "Cangrejo"; "Mariposa";
       "Abeja"; "Araña"; "Murciélago"; "Búho"]));
    ("profesiones", ("👨‍⚕️", "Profesiones",
      ["Doctor"; "Maestro"; "Policía"; "Bombero"; "Chef"; "Piloto"; "Ingeniero";
       "Abogado"; "Arquitecto"; "Enfermero"; "Dentista"; "Programador";
       "Mecánico"; "Electricista"; "Veterinario"; "Psicólogo"; "Periodista";
       "Fotógrafo"; "Músico"; "Actor"; "Director"; "Escritor"; "Científico";
       "Astronauta"; "Atleta"; "Granjero"; "Pescador"; "Panadero"]));
    ("objetos", ("📱", "Objetos",
      ["Teléfono"; "Computadora"; "Llave"; "Mochila"; "Reloj"; "Lápiz";
       "Cuaderno"; "Silla"; "Mesa"; "Televisor"; "Cámara"; "Botella";
       "Audífonos"; "Linterna"; "Paraguas"; "Espejo"; "Tijeras"; "Martillo";
       "Cuchillo"; "Tenedor"; "Cuchara"; "Plato"; "Vaso"; "Taza"; "Almohada";
       "Cobija"; "Toalla"; "Jabón"; "Cepillo"; "Peine"]));
    ("transporte", ("🚗", "Transporte",
      ["Carro"; "Moto"; "Bicicleta"; "Avión"; "Barco"; "Submarino"; "Tren";
       "Metro"; "Autobús"; "Camión"; "Helicóptero"; "Patineta"; "Taxi";
       "Ambulancia"; "Camioneta"; "Limusina"; "Yate"; "Canoa";
       "Globo Aerostático"; "Cohete"; "Teleférico"; "Trineo"; "Patines";
       "Scooter"]));
    ("emociones", ("😊", "Emociones",
      ["Felicidad"; "Tristeza"; "Enojo"; "Miedo"; "Sorpresa"; "Nervios";
       "Vergüenza"; "Orgullo"; "Celos"; "Ansiedad"; "Calma"; "Emoción"; "Amor";
       "Odio"; "Confusión"; "Aburrimiento"; "Esperanza"; "Nostalgia";
       "Gratitud"; "Envidia"; "Frustración"; "Satisfacción"; "Melancolía";
       "Euforia"]));
    ("acciones", ("🏃", "Acciones",
      ["Correr"; "Saltar"; "Dormir"; "Comer"; "Nadar"; "Cantar"; "Bailar";
       "Leer"; "Escribir"; "Gritar"; "Pensar"; "Reír"; "Llorar"; "Cocinar";
       "Pintar"; "Dibujar"; "Fotografiar"; "Conducir"; "Volar"; "Escalar";
       "Bucear"; "Esquiar"; "Patinar"; "Surfear"; "Meditar"; "Rezar";
       "Aplaudir"; "Silbar"; "Bostezar"; "Estornudar"]));
    ("peliculas", ("🎬", "Películas",
      ["Titanic"; "Avatar"; "Matrix"; "Inception"; "Gladiador"; "Forrest Gump";
       "El Padrino"; "Jurassic Park"; "Toy Story"; "Frozen"; "Coco"; "Shrek";
       "Harry Potter"; "Star Wars"; "El Rey León"; "Avengers"; "Batman";
       "Superman"; "Spiderman"; "Iron Man"; "Terminator"; "Rocky"; "Karate Kid";
       "ET"]));
    ("deportes", ("⚽", "Deportes",
      ["Fútbol"; "Básquetbol"; "Tenis"; "Béisbol"; "Golf"; "Natación"; "Boxeo";
       "Karate"; "Judo"; "Ciclismo"; "Atletismo"; "Gimnasia"; "Voleibol";
       "Rugby"; "Hockey"; "Esquí"; "Snowboard"; "Surf"; "Escalada";
       "Paracaidismo"; "Buceo"; "Polo"; "Esgrima"; "Arquería"]));
    ("musica", ("🎵", "Música",
      ["Guitarra"; "Piano"; "Batería"; "Violín"; "Trompeta"; "Saxofón";
       "Flauta"; "Acordeón"; "Arpa"; "Rock"; "Pop"; "Jazz"; "Salsa";
       "Reggaeton"; "Hip Hop"; "Clásica"; "Electrónica"; "Country"; "Blues";
       "Metal"; "Punk"; "Ópera"; "Mariachi"; "Cumbia"]))
  ].
(** Category objects and word arrays are heap objects: [CATEGORIES] and
    [DEFAULT_CATEGORIES] hold references to them. *)
Abbreviation loc := nat (only parsing).

(** A missing property is [None]. The code can build category objects
    without [words], from a value that is no category. *)
Record Category := {
  emoji : option string;
  name : option string;
  words : option loc;
  isCustom : option Json;
}.

(** [{}] *)
Definition empty_object : Category :=
  {| emoji := None; name := None; words := None; isCustom := None |}.

(** An element [None] of a word array is [undefined]. *)
Record Heap := {
  objects : gmap loc Category;
  arrays : gmap loc (list (option string));
  next : loc;                        (* the next free reference *)
}.

Definition empty_heap : Heap := {| objects := ∅; arrays := ∅; next := 0%nat |}.

Definition alloc_array (contents : list (option string)) (h : Heap) : loc * Heap :=
  (next h, {| objects := objects h; arrays := <[next h := contents]> (arrays h);
              next := S (next h) |}).

Definition alloc_object (c : Category) (h : Heap) : loc * Heap :=
  (next h, {| objects := <[next h := c]> (objects h); arrays := arrays h;
              next := S (next h) |}).

Definition set_array (l : loc) (contents : list (option string)) (h : Heap) : Heap :=
  {| objects := objects h; arrays := <[l := contents]> (arrays h); next := next h |}.

Definition set_object (l : loc) (c : Category) (h : Heap) : Heap :=
  {| objects := <[l := c]> (objects h); arrays := arrays h; next := next h |}.

(** [{ ...c, words }] *)
Definition with_words (wl : loc) (c : Category) : Category :=
  {| emoji := emoji c; name := name c; words := Some wl; isCustom := isCustom c |}.

(** [c.words], read through the heap; [None] is [undefined]. *)
Definition words_of (h : Heap) (c : Category) : option (list (option string)) :=
  match words c with
  | Some wl => Some (default [] (arrays h !! wl))
  | None => None
  end.

(** The own property [key] of [categories]: the reference and the object
    it points to. *)
Definition lookup_category (h : Heap) (categories : list (string * loc)) (key : string)
  : option (loc * Category) :=
  match prop_get key categories with
  | Some l => match objects h !! l with
              | Some c => Some (l, c)
              | None => None
              end
  | None => None
  end.

(** Evaluating the literal: one array and one object per category. *)
Definition DEFAULT_CATEGORIES_loaded : list (string * loc) * Heap :=
  foldl (fun acc entry =>
           let '(key, (e, n, ws)) := entry in
           let (wl, h1) := alloc_array (Some <$> ws) acc.2 in
           let (cl, h2) :=
             alloc_object {| emoji := Some e; name := Some n; words := Some wl;
                             isCustom := None |} h1 in
           (prop_set key cl acc.1, h2))
        ([], empty_heap) DEFAULT_CATEGORIES_literal.

Definition DEFAULT_CATEGORIES : list (string * loc) := DEFAULT_CATEGORIES_loaded.1.

Global Arguments DEFAULT_CATEGORIES : simpl never.
Global Arguments DEFAULT_CATEGORIES_loaded : simpl never.

(** *** Reading [categories[key]]

    [CATEGORIES] and [DEFAULT_CATEGORIES] are ordinary objects, so a read
    [categories[key]] that finds no own property goes on to the prototype.
    [Object.prototype] has the members listed here (ECMAScript, Annex B
    included), all of them functions but ["__proto__"], whose getter
    returns the prototype of the object that is read. *)
Definition Object_prototype : list string :=
  ["constructor"; "hasOwnProperty"; "isPrototypeOf"; "propertyIsEnumerable";
   "toLocaleString"; "toString"; "valueOf"; "__proto__"; "__defineGetter__";
   "__defineSetter__"; "__lookupGetter__"; "__lookupSetter__"].

(** What the object [CATEGORIES] inherits before [Object.prototype].
    [updateCategoryMeta("__proto__", updates)] is the one call that leaves
    [CATEGORIES] with a prototype of its own making, an object with at most
    a [name] and an [emoji]; every [CATEGORIES = updateMixedCategory(...)]
    starts again from a new object. *)
Record Prototype := {
  protoName : option string;
  protoEmoji : option string;
}.

(** The prototype is [Object.prototype] itself. *)
Definition plain : Prototype := {| protoName := None; protoEmoji := None |}.

Inductive Value :=
  | Own (l : loc)              (* an own property: a category object *)
  | Member (member : string)   (* a member of [Object.prototype] *)
  | Text (s : string).         (* a string of the replaced prototype *)

(** [categories[key]]; [None] is [undefined]. *)
Definition get_property (key : string) (categories : list (string * loc)) (proto : Prototype)
  : option Value :=
  match prop_get key categories with
  | Some l => Some (Own l)
  | None =>
      if decide (key = "name") then Text <$> protoName proto
      else if decide (key = "emoji") then Text <$> protoEmoji proto
      else if bool_decide (key ∈ Object_prototype) then Some (Member key)
      else None
  end.

(** Objects and functions are truthy; of the strings only the empty one is
    not. *)
Definition truthy_value (v : Value) : bool :=
  match v with
  | Own _ | Member _ => true
  | Text s => negb (bool_decide (s = ""))
  end.

(** [categories[key]] when it is truthy: the value that passes a guard
    such as [if (CATEGORIES[key])]. *)
Definition present (key : string) (categories : list (string * loc)) (proto : Prototype)
  : option Value :=
  match get_property key categories proto with
  | Some v => if truthy_value v then Some v else None
  | None => None
  end.

(** [{ ...v }]: the own enumerable properties of [v]. A function has none;
    the prototype has those it was given; a string has its characters,
    under index keys that a category does not have. *)
Definition spread_value (h : Heap) (proto : Prototype) (v : Value) : Category :=
  match v with
  | Own l => default empty_object (objects h !! l)
  | Member member =>
      if decide (member = "__proto__")
      then {| emoji := protoEmoji proto; name := protoName proto; words := None;
              isCustom := None |}
      else empty_object
  | Text _ => empty_object
  end.

(** [v.words], the reference. *)
Definition value_array (h : Heap) (v : Value) : option loc :=
  match v with
  | Own l => match objects h !! l with Some c => words c | None => None end
  | Member _ | Text _ => None
  end.

(** [v.words], the array read through the heap. *)
Definition value_words (h : Heap) (v : Value) : option (list (option string)) :=
  match value_array h v with
  | Some wl => Some (default [] (arrays h !! wl))
  | None => None
  end.

(** What the comparisons of the code read off a value: [v.words] through
    [JSON.stringify], [v.name] and [v.emoji]. The [name] of a function is
    the name it was defined under; [Object.prototype.constructor] is
    [Object]. *)
Record Facts := {
  seen_words : option (list (option string));
  seen_name : option string;
  seen_emoji : option string;
}.

Definition facts (h : Heap) (proto : Prototype) (v : Value) : Facts :=
  match v with
  | Own l =>
      match objects h !! l with
      | Some c => {| seen_words := words_of h c; seen_name := name c; seen_emoji := emoji c |}
      | None => {| seen_words := None; seen_name := None; seen_emoji := None |}
      end
  | Member member =>
      if decide (member = "__proto__")
      then {| seen_words := None; seen_name := protoName proto;
              seen_emoji := protoEmoji proto |}
      else {| seen_words := None;
              seen_name := Some (if decide (member = "constructor") then "Object" else member);
              seen_emoji := None |}
  | Text _ => {| seen_words := None; seen_name := None; seen_emoji := None |}
  end.

(** [JSON.stringify(a.words) !== JSON.stringify(b.words) ||
     a.name !== b.name || a.emoji !== b.emoji] *)
Definition differs (a b : Facts) : bool :=
  bool_decide (seen_words a <> seen_words b)
  || bool_decide (seen_name a <> seen_name b)
  || bool_decide (seen_emoji a <> seen_emoji b).

(** The module state: the variable [CATEGORIES] with the prototype of the
    object it holds, the heap, and the store behind AsyncStorage. *)
Record Store := {
  CATEGORIES : list (string * loc);
  prototype : Prototype;
  heap : Heap;
  storage : AsyncStorage;
}.

(** What [flatMap] appends for the category behind a reference: its
    words, or the one value [undefined] when it has no [words]. *)
Definition category_words (h : Heap) (l : loc) : list (option string) :=
  match objects h !! l with
  | Some category =>
      match words_of h category with
      | Some ws => ws
      | None => [None]
      end
  | None => []
  end.

Definition getAllWords (categories : list (string * loc)) (h : Heap) : list (option string) :=
  flat_map (fun kv => category_words h kv.2)
           (filter (fun kv => kv.1 <> "mixta") categories).

(** A new top-level object and a new [mixta] object with a new word array. *)
Definition updateMixedCategory (categories : list (string * loc)) (h : Heap)
  : list (string * loc) * Heap :=
  let (wl, h1) := alloc_array (getAllWords categories h) h in
  let mixta :=
    match lookup_category h categories "mixta" with
    | Some (_, c) => with_words wl c
    | None => with_words wl empty_object
    end in
  let (ml, h2) := alloc_object mixta h1 in
  (prop_set "mixta" ml categories, h2).

(** [let CATEGORIES = { ...DEFAULT_CATEGORIES }] followed by
    [CATEGORIES = updateMixedCategory(CATEGORIES)]. *)
Definition initial_store (st : AsyncStorage) : Store :=
  let (categories, h) := updateMixedCategory DEFAULT_CATEGORIES DEFAULT_CATEGORIES_loaded.2 in
  {| CATEGORIES := categories; prototype := plain; heap := h; storage := st |}.

(** [CATEGORIES = updateMixedCategory(categories)] *)
Definition assign_mixed (categories : list (string * loc)) (h : Heap) (s : Store) : Store :=
  let (categories', h') := updateMixedCategory categories h in
  {| CATEGORIES := categories'; prototype := plain; heap := h'; storage := storage s |}.

Definition with_storage (st : AsyncStorage) (s : Store) : Store :=
  {| CATEGORIES := CATEGORIES s; prototype := prototype s; heap := heap s; storage := st |}.

(** *** Validation of the stored customizations *)

Definition isValidCategory (cat : Json) : bool :=
  if negb (truthy cat) || negb (typeof_object cat) then false
  else typeof_string (json_get "emoji" cat)
       && typeof_string (json_get "name" cat)
       && is_string_array (json_get "words" cat).

Definition isValidCategories (data : Json) : bool :=
  if negb (truthy data) || negb (typeof_object data) then false
  else forallb isValidCategory (Object_values data).

(** The category object that [JSON.parse] built for a valid entry, and its
    word array. *)
Definition parsed_words (cat : Json) : list (option string) :=
  match json_get "words" cat with
  | Some (JArray ws) =>
      Some <$> omap (fun w => match w with JString s => Some s | _ => None end) ws
  | _ => []
  end.

Definition parsed_object (cat : Json) (wl : loc) : Category :=
  let text v := match v with Some (JString s) => Some s | _ => None end in
  {| emoji := text (json_get "emoji" cat); name := text (json_get "name" cat);
     words := Some wl; isCustom := json_get "isCustom" cat |}.

Definition parsed_category (cat : Json) (h : Heap) : loc * Heap :=
  let (wl, h1) := alloc_array (parsed_words cat) h in
  alloc_object (parsed_object cat wl) h1.

Definition parsed_categories (data : Json) (h : Heap) : list (string * loc) * Heap :=
  foldl (fun acc kv =>
           let (cl, h') := parsed_category kv.2 acc.2 in
           (prop_set kv.1 cl acc.1, h'))
        ([], h) (Object_entries data).

(** *** Persistence of the customizations *)

Definition property (key : string) (v : option Json) : list (string * Json) :=
  match v with Some j => [(key, j)] | None => [] end.

(** An [undefined] in an array is written as [null]. *)
Definition word_json (w : option string) : Json :=
  match w with Some s => JString s | None => JNull end.

(** The object [JSON.stringify] sees for a category. *)
Definition json_of_category (h : Heap) (c : Category) : Json :=
  JObject (property "emoji" (JString <$> emoji c)
           ++ property "name" (JString <$> name c)
           ++ property "words" ((fun ws => JArray (word_json <$> ws)) <$> words_of h c)
           ++ property "isCustom" (isCustom c)).

Definition is_custom (c : Category) : bool :=
  match isCustom c with Some v => truthy v | None => false end.

(** [{ ...category, isCustom: true }] *)
Definition marked_custom (c : Category) : Category :=
  {| emoji := emoji c; name := name c; words := words c; isCustom := Some (JBool true) |}.

(** The loop of [saveCustomCategories] over [Object.entries(CATEGORIES)].
    [DEFAULT_CATEGORIES[key]] is read like any property, and
    [customCategories[key] = ...] is an assignment. *)
Definition customCategories_of (s : Store) : list (string * Json) :=
  foldl (fun customCategories kv =>
           if decide (kv.1 = "mixta") then customCategories
           else match objects (heap s) !! kv.2 with
                | None => customCategories
                | Some category =>
                    match present kv.1 DEFAULT_CATEGORIES plain with
                    | None =>
                        prop_assign kv.1 (json_of_category (heap s) (marked_custom category))
                                    customCategories
                    | Some defaultCategory =>
                        if is_custom category
                        then prop_assign kv.1
                               (json_of_category (heap s) (marked_custom category))
                               customCategories
                        else if differs (facts (heap s) plain (Own kv.2))
                                        (facts (heap s) plain defaultCategory)
                        then prop_assign kv.1 (json_of_category (heap s) category)
                                         customCategories
                        else customCategories
                    end
                end)
        [] (CATEGORIES s).

Definition saveCustomCategories (s : Store) : bool * Store :=
  let (ok, st) :=
    safeStorageSet CUSTOM_CATEGORIES_KEY (JSON_stringify (JObject (customCategories_of s)))
                   (storage s) in
  (ok, with_storage st s).

Definition loadCustomCategories (s : Store) : Store :=
  let (saved, st) := safeStorageGet CUSTOM_CATEGORIES_KEY (storage s) in
  match safeJsonParse saved isValidCategories with
  | Some customCategories =>
      let (custom, h) := parsed_categories customCategories (heap s) in
      assign_mixed (spread DEFAULT_CATEGORIES custom) h (with_storage st s)
  | None =>
      let st' := match saved with
                 | Some _ => (safeStorageRemove CUSTOM_CATEGORIES_KEY st).2
                 | None => st
                 end in
      assign_mixed DEFAULT_CATEGORIES (heap s) (with_storage st' s)
  end.

Definition resetCategoriesToDefault (s : Store) : bool * Store :=
  let (success, st) := safeStorageRemove CUSTOM_CATEGORIES_KEY (storage s) in
  (success, assign_mixed DEFAULT_CATEGORIES (heap s) (with_storage st s)).

Definition getCategories (s : Store) : list (string * loc) := CATEGORIES s.

(** *** Editing

    A call that throws rejects its promise with a [TypeError]. It has
    assigned nothing by then, so the module state is the one it found;
    the result is [None]. *)

Definition updateCategoryWords (key : string) (newWords : list string) (s : Store) : Store :=
  if decide (key = "mixta") then s
  else match present key (CATEGORIES s) (prototype s) with
       | Some v =>
           let (wl, h1) := alloc_array (Some <$> newWords) (heap s) in
           let (cl, h2) :=
             alloc_object (with_words wl (spread_value (heap s) (prototype s) v)) h1 in
           (saveCustomCategories (assign_mixed (prop_assign key cl (CATEGORIES s)) h2 s)).2
       | None => s
       end.

Definition addWordToCategory (key word : string) (s : Store) : option Store :=
  if decide (key = "mixta") then Some s
  else match present key (CATEGORIES s) (prototype s) with
       | Some v =>
           match value_array (heap s) v with
           | Some wl =>
               let ws := default [] (arrays (heap s) !! wl) in
               if bool_decide (Some word ∈ ws) then Some s
               else
                 (* push: the array itself grows *)
                 let h1 := set_array wl (ws ++ [Some word]) (heap s) in
                 Some (saveCustomCategories (assign_mixed (CATEGORIES s) h1 s)).2
           | None => None                     (* [undefined.includes] *)
           end
       | None => Some s
       end.

Definition removeWordFromCategory (key word : string) (s : Store) : option Store :=
  if decide (key = "mixta") then Some s
  else match present key (CATEGORIES s) (prototype s) with
       | Some (Own cl) =>
           match objects (heap s) !! cl with
           | Some category =>
               match words_of (heap s) category with
               | Some ws =>
                   (* the category object gets a new array *)
                   let (wl, h1) :=
                     alloc_array (filter (fun w => w <> Some word) ws) (heap s) in
                   let h2 := set_object cl (with_words wl category) h1 in
                   Some (saveCustomCategories (assign_mixed (CATEGORIES s) h2 s)).2
               | None => None                 (* [undefined.filter] *)
               end
           | None => None
           end
       | Some (Member _) | Some (Text _) => None   (* [undefined.filter] *)
       | None => Some s
       end.

Definition createCategory (key name' emoji' : string) (newWords : list string) (s : Store)
  : bool * Store :=
  match present key (CATEGORIES s) (prototype s) with
  | Some _ => (false, s)
  | None =>
      let (wl, h1) := alloc_array (Some <$> newWords) (heap s) in
      let (cl, h2) :=
        alloc_object {| emoji := Some emoji'; name := Some name'; words := Some wl;
                        isCustom := Some (JBool true) |} h1 in
      (true, (saveCustomCategories (assign_mixed (prop_assign key cl (CATEGORIES s)) h2 s)).2)
  end.

(** [CATEGORIES[key]?.isCustom] is [undefined] for every value that is not
    a category. *)
Definition deleteCategory (key : string) (s : Store) : bool * Store :=
  if decide (key = "mixta") then (false, s)
  else match get_property key (CATEGORIES s) (prototype s) with
       | Some (Own l) =>
           match objects (heap s) !! l with
           | Some category =>
               if negb (is_custom category) then (false, s)
               else (true, (saveCustomCategories
                              (assign_mixed (prop_delete key (CATEGORIES s)) (heap s) s)).2)
           | None => (false, s)
           end
       | _ => (false, s)
       end.

(** The argument [updates]: for each of [name] and [emoji], [None] when
    the property is absent and [Some v] when it is there with the value
    [v], which the type allows to be [undefined]. *)
Record Updates := {
  newName : option (option string);
  newEmoji : option (option string);
}.

(** [{ ...c, ...updates }] *)
Definition updated (updates : Updates) (c : Category) : Category :=
  {| emoji := match newEmoji updates with Some e => e | None => emoji c end;
     name := match newName updates with Some n => n | None => name c end;
     words := words c; isCustom := isCustom c |}.

(** No [updateMixedCategory] here: the object [CATEGORIES] stays, and with
    the key ["__proto__"] (not an own property) the assignment gives it a
    new prototype. *)
Definition updateCategoryMeta (key : string) (updates : Updates) (s : Store) : Store :=
  if decide (key = "mixta") then s
  else match present key (CATEGORIES s) (prototype s) with
       | Some v =>
           let object := updated updates (spread_value (heap s) (prototype s) v) in
           let (cl, h1) := alloc_object object (heap s) in
           (saveCustomCategories
              {| CATEGORIES := prop_assign key cl (CATEGORIES s);
                 prototype :=
                   match prop_get key (CATEGORIES s) with
                   | Some _ => prototype s
                   | None =>
                       if decide (key = "__proto__")
                       then {| protoName := name object; protoEmoji := emoji object |}
                       else prototype s
                   end;
                 heap := h1; storage := storage s |}).2
       | None => s
       end.

(** [None]: the call throws, [CATEGORIES[key]] being [undefined]. *)
Definition isCategoryModified (key : string) (s : Store) : option bool :=
  if decide (key = "mixta") then Some false
  else match present key DEFAULT_CATEGORIES plain with
       | None => Some true
       | Some defaultCat =>
           match get_property key (CATEGORIES s) (prototype s) with
           | Some current =>
               Some (differs (facts (heap s) (prototype s) current)
                             (facts (heap s) plain defaultCat))
           | None => None
           end
       end.

Definition resetCategoryToDefault (key : string) (s : Store) : Store :=
  if decide (key = "mixta") then s
  else match present key DEFAULT_CATEGORIES plain with
       | None => s
       | Some defaultCategory =>
           (* a shallow copy *)
           let (cl, h1) := alloc_object (spread_value (heap s) plain defaultCategory) (heap s) in
           (saveCustomCategories (assign_mixed (prop_assign key cl (CATEGORIES s)) h1 s)).2
       end.

(** *** The public operations on the store *)

Inductive Operation :=
  | LoadCustomCategories
  | UpdateCategoryWords (key : string) (newWords : list string)
  | AddWordToCategory (key word : string)
  | RemoveWordFromCategory (key word : string)
  | CreateCategory (key name' emoji' : string) (newWords : list string)
  | DeleteCategory (key : string)
  | UpdateCategoryMeta (key : string) (updates : Updates)
  | ResetCategoryToDefault (key : string)
  | ResetCategoriesToDefault.

(** The store an operation leaves behind; [None] when it throws. *)
Definition run (op : Operation) (s : Store) : option Store :=
  match op with
  | LoadCustomCategories => Some (loadCustomCategories s)
  | UpdateCategoryWords key newWords => Some (updateCategoryWords key newWords s)
  | AddWordToCategory key word => addWordToCategory key word s
  | RemoveWordFromCategory key word => removeWordFromCategory key word s
  | CreateCategory key name' emoji' newWords =>
      Some (createCategory key name' emoji' newWords s).2
  | DeleteCategory key => Some (deleteCategory key s).2
  | UpdateCategoryMeta key updates => Some (updateCategoryMeta key updates s)
  | ResetCategoryToDefault key => Some (resetCategoryToDefault key s)
  | ResetCategoriesToDefault => Some (resetCategoriesToDefault s).2
  end.

(** ** Game variants *)

Inductive GameVariant := classic | double_impostor | accomplices | jester | chaos.

Inductive PlayerRole := citizen | impostor | jester_role.

Record PlayerRoleInfo := {
  role : PlayerRole;
  knowsWord : bool;
  partnerName : option string;     (* for accomplices mode *)
}.

Record GameVariantConfig := {
  id : GameVariant;
  variantName : string;
  variantEmoji : string;
  description : string;
  minPlayers : Z;
  impostorCount : Z;
  hasJester : bool;
  impostorsKnowEachOther : bool;
}.

Definition GAME_VARIANTS (variant : GameVariant) : GameVariantConfig :=
  match variant with
  | classic =>
      {| id := classic; variantName := "Clásico"; variantEmoji := "🎭";
         description := "1 impostor que no conoce la palabra";
         minPlayers := 3; impostorCount := 1; hasJester := false;
         impostorsKnowEachOther := false |}
  | double_impostor =>
      {| id := double_impostor; variantName := "Doble Agente"; variantEmoji := "👺👺";
         description := "2 impostores que NO se conocen entre sí";
         minPlayers := 5; impostorCount := 2; hasJester := false;
         impostorsKnowEachOther := false |}
  | accomplices =>
      {| id := accomplices; variantName := "Compinches"; variantEmoji := "🤝";
         description := "2 impostores que SÍ se conocen entre sí";
         minPlayers := 5; impostorCount := 2; hasJester := false;
         impostorsKnowEachOther := true |}
  | jester =>
      {| id := jester; variantName := "Bufón"; variantEmoji := "🤡";
         description := "1 impostor + 1 bufón que quiere ser votado";
         minPlayers := 4; impostorCount := 1; hasJester := true;
         impostorsKnowEachOther := false |}
  | chaos =>
      {| id := chaos; variantName := "Caos Total"; variantEmoji := "🌪️";
         description := "2 impostores + 1 bufón (máxima confusión)";
         minPlayers := 6; impostorCount := 2; hasJester := true;
         impostorsKnowEachOther := false |}
  end.

(** ** [startNewGame] *)

(** What [startNewGame] returns. [None] in [secretWord] or [starterPlayer]
    is [undefined]. *)
Record Round := {
  shuffledPlayers : list string;
  impostorIndices : list Z;
  jesterIndex : Z;                     (* -1 if no jester *)
  playerRoles : list PlayerRoleInfo;
  secretWord : option string;
  starterPlayer : option string;
}.

(** The role record built for position [index] by the callback of [map]. *)
Definition role_at (variantConfig : GameVariantConfig) (shuffledPlayers : list string)
    (impostorIndices : list Z) (jesterIndex : Z) (index : nat) : PlayerRoleInfo :=
  if bool_decide (Z.of_nat index ∈ impostorIndices) then
    {| role := impostor; knowsWord := false;
       partnerName :=
         if impostorsKnowEachOther variantConfig && bool_decide (1 < impostorCount variantConfig)
         then match List.find (fun i => bool_decide (i <> Z.of_nat index)) impostorIndices with
              | Some partnerIndex => at_index shuffledPlayers (Int partnerIndex)
              | None => None
              end
         else None |}
  else if bool_decide (Z.of_nat index = jesterIndex) then
    {| role := jester_role; knowsWord := true; partnerName := None |}
  else
    {| role := citizen; knowsWord := true; partnerName := None |}.

(** [CATEGORIES[category]?.words || CATEGORIES.mixta.words]; an array is
    truthy even when empty, and a value without [words] (a category that
    has none, an inherited member) gives way to [mixta]. Without a [mixta]
    entry that has its [words] the reads that follow throw. *)
Definition words_for (category : string) (s : Store) : option (list (option string)) :=
  let chosen :=
    match get_property category (CATEGORIES s) (prototype s) with
    | Some v => value_words (heap s) v
    | None => None
    end in
  match chosen with
  | Some ws => Some ws
  | None =>
      match lookup_category (heap s) (CATEGORIES s) "mixta" with
      | Some (_, mixta) => words_of (heap s) mixta
      | None => None
      end
  end.

Definition startNewGame (players : list string) (category : string) (variant : GameVariant)
    (s : Store) : M Round :=
  let variantConfig := GAME_VARIANTS variant in
  let* shuffledPlayers := shuffleArray players in
  let playerCount := Z.of_nat (length shuffledPlayers) in
  let* impostorIndices := selectUniqueIndices (impostorCount variantConfig) playerCount [] in
  let* jesterIndex :=
    if hasJester variantConfig then
      let* jesterIndices := selectUniqueIndices 1 playerCount impostorIndices in
      ret (default (-1) (jesterIndices !! 0%nat))
    else ret (-1) in
  let playerRoles :=
    imap (fun index _ => role_at variantConfig shuffledPlayers impostorIndices jesterIndex index)
         shuffledPlayers in
  let* words := defined (words_for category s) in
  let* wordIndex := await (secureRandom (Z.of_nat (length words))) in
  let secretWord := mjoin (at_index words wordIndex) in
  let* starterIndex := await (secureRandom playerCount) in
  let starterPlayer := at_index shuffledPlayers starterIndex in
  ret {| shuffledPlayers := shuffledPlayers; impostorIndices := impostorIndices;
         jesterIndex := jesterIndex; playerRoles := playerRoles;
         secretWord := secretWord; starterPlayer := starterPlayer |}.

Definition isVariantValid (variant : GameVariant) (playerCount : Z) : bool :=
  bool_decide (minPlayers (GAME_VARIANTS variant) <= playerCount).

(** ** Persistence of the game configuration *)

Definition isValidGameState (data : Json) : bool :=
  if negb (truthy data) || negb (typeof_object data) then false
  else if match json_get "players" data with
          | Some players => negb (is_string_array (Some players))
          | None => false
          end then false
  else if match json_get "selectedCategory" data with
          | Some v => negb (typeof_string (Some v))
          | None => false
          end then false
  else if match json_get "selectedVariant" data with
          | Some v => negb (typeof_string (Some v))
          | None => false
          end then false
  else true.


(** The loaded config is the parsed object itself; [JObject []] is [{}]. *)
Definition loadGameState (st : AsyncStorage) : Json * AsyncStorage :=
  let (saved, st1) := safeStorageGet STORAGE_KEY st in
  match safeJsonParse saved isValidGameState with
  | Some parsed => (parsed, st1)
  | None =>
      match saved with
      | Some _ => (JObject [], (safeStorageRemove STORAGE_KEY st1).2)
      | None => (JObject [], st1)
      end
  end.



Definition clearGameState (st : AsyncStorage) : bool * AsyncStorage :=
  safeStorageRemove STORAGE_KEY st.

(** ** Vocabulary of the specification *)

(** Largest integer below which every integer is a binary64 value:
    [Number.MAX_SAFE_INTEGER]. *)
Definition MAX_SAFE_INTEGER : Z := 9007199254740991.

(** The eligible indices of [selectUniqueIndices]: [[0, max)] without
    [exclude]. *)
Definition pool (max : Z) (exclude : list Z) : list Z :=
  filter (fun i => i ∉ exclude) (Z.of_nat <$> seq 0 (Z.to_nat max)).

Global Instance PlayerRole_eq_dec : EqDecision PlayerRole.
Proof. solve_decision. Defined.

(** Number of records with role [r]. *)
Definition count_role (r : PlayerRole) (roles : list PlayerRoleInfo) : nat :=
  length (filter (fun info => role info = r) roles).

(** The part of a round that the role assignment depends on. *)
Record Assignment (variant : GameVariant) (players : list string) (r : Round) : Prop := {
  asg_perm : shuffledPlayers r ≡ₚ players;
  asg_nodup : NoDup (impostorIndices r);
  asg_range : forall i, i ∈ impostorIndices r -> 0 <= i < Z.of_nat (length players);
  asg_count : Z.of_nat (length (impostorIndices r)) = impostorCount (GAME_VARIANTS variant);
  asg_jester :
    if hasJester (GAME_VARIANTS variant)
    then 0 <= jesterIndex r < Z.of_nat (length players)
         /\ (jesterIndex r ∉ impostorIndices r)
    else jesterIndex r = -1;
  asg_roles :
    playerRoles r =
    role_at (GAME_VARIANTS variant) (shuffledPlayers r) (impostorIndices r) (jesterIndex r)
      <$> seq 0 (length players);
}.

(** [CATEGORIES] has a [mixta] entry, with its [words]. *)
Definition has_mixta (s : Store) : Prop :=
  exists l mixta wl,
    lookup_category (heap s) (CATEGORIES s) "mixta" = Some (l, mixta)
    /\ words mixta = Some wl.


(** *** The invariant of the category store *)

(** The reference [l] points to a category object that has a word array. *)
Definition ref_ok (h : Heap) (l : loc) : bool :=
  match objects h !! l with
  | Some c =>
      match words c with
      | Some wl =>
          bool_decide (l < next h)%nat && bool_decide (wl < next h)%nat
          && bool_decide (is_Some (arrays h !! wl))
      | None => false
      end
  | None => false
  end.

Definition refs_ok (h : Heap) (categories : list (string * loc)) : bool :=
  forallb (fun kv => ref_ok h kv.2) categories.

(** The word list of the category object behind a reference, when it has
    one. *)
Definition word_list (h : Heap) (l : loc) : option (list (option string)) :=
  match objects h !! l with
  | Some c => match words c with Some wl => arrays h !! wl | None => None end
  | None => None
  end.

(** The word list of the [mixta] category. *)
Definition mixta_words (s : Store) : option (list (option string)) :=
  match prop_get "mixta" (CATEGORIES s) with
  | Some l => word_list (heap s) l
  | None => None
  end.

(** The word lists of all other categories, in the order of [CATEGORIES]. *)
Definition other_word_lists (s : Store) : list (list (option string)) :=
  omap (fun kv => word_list (heap s) kv.2)
       (filter (fun kv => kv.1 <> "mixta") (CATEGORIES s)).

(** The word list of the category [key]; [None] when there is none. *)
Definition words_in (key : string) (s : Store) : option (list (option string)) :=
  match prop_get key (CATEGORIES s) with
  | Some l => word_list (heap s) l
  | None => None
  end.

(** [CATEGORIES[key]] is [undefined]: no category of that name, and no
    inherited value either. *)
Definition unknown (key : string) (s : Store) : Prop :=
  get_property key (CATEGORIES s) (prototype s) = None.

(** [categories[key]] is a member of [Object.prototype]: the key names
    one, and [categories] has no property of its own under it. *)
Definition inherits (key : string) (categories : list (string * loc)) : bool :=
  bool_decide (prop_get key categories = None) && bool_decide (key ∈ Object_prototype).

(** The word list written in the literal [DEFAULT_CATEGORIES] for [key]. *)
Definition shipped_words (key : string) : option (list string) :=
  match prop_get key DEFAULT_CATEGORIES_literal with
  | Some (_, _, ws) => Some ws
  | None => None
  end.

Global Instance Prototype_eq_dec : EqDecision Prototype.
Proof. solve_decision. Defined.

(** [CATEGORIES] inherits from [Object.prototype] alone, every category
    has its word array, and [mixta] holds the concatenation of the other
    word lists. *)
Definition store_inv (s : Store) : Prop :=
  bool_decide (prototype s = plain)
  && refs_ok (heap s) DEFAULT_CATEGORIES
  && refs_ok (heap s) (CATEGORIES s)
  && bool_decide (mixta_words s = Some (concat (other_word_lists s))) = true.

(** [h'] extends [h]: what was allocated in [h] is unchanged in [h']. *)
Definition heap_keeps (h h' : Heap) : Prop :=
  (next h <= next h')%nat
  /\ (forall l, (l < next h)%nat -> objects h' !! l = objects h !! l)
  /\ (forall a, (a < next h)%nat -> arrays h' !! a = arrays h !! a).

(** *** The persisted game configuration *)

(** The string behind each value of the type [GameVariant]. *)
Definition variant_id (variant : GameVariant) : string :=
  match variant with
  | classic => "classic"
  | double_impostor => "double-impostor"
  | accomplices => "accomplices"
  | jester => "jester"
  | chaos => "chaos"
  end.



(** The field types declared by the interface [GameState], for the fields
    that are present ([Partial<GameState>]). *)
Definition is_string (v : Json) : bool :=
  match v with JString _ => true | _ => false end.

Definition is_number (v : Json) : bool :=
  match v with JNumber _ => true | _ => false end.

Definition is_boolean (v : Json) : bool :=
  match v with JBool _ => true | _ => false end.

Definition is_array_of (check : Json -> bool) (v : Json) : bool :=
  match v with JArray items => forallb check items | _ => false end.

Definition is_one_of (ids : list string) (v : Json) : bool :=
  match v with JString s => bool_decide (s ∈ ids) | _ => false end.

Definition optional (check : Json -> bool) (key : string) (obj : Json) : bool :=
  match json_get key obj with Some v => check v | None => true end.

Definition required (check : Json -> bool) (key : string) (obj : Json) : bool :=
  match json_get key obj with Some v => check v | None => false end.

Definition is_PlayerRoleInfo (v : Json) : bool :=
  required (is_one_of ["citizen"; "impostor"; "jester"]) "role" v
  && required is_boolean "knowsWord" v
  && optional is_string "partnerName" v.

Definition conforms_to_GameState (v : Json) : bool :=
  optional (is_array_of is_string) "players" v
  && optional is_string "selectedCategory" v
  && optional (is_one_of (variant_id <$> [classic; double_impostor; accomplices; jester; chaos]))
              "selectedVariant" v
  && optional (is_array_of is_string) "shuffledPlayers" v
  && optional is_number "currentPlayerIndex" v
  && optional (is_array_of is_number) "impostorIndices" v
  && optional is_number "jesterIndex" v
  && optional (is_array_of is_PlayerRoleInfo) "playerRoles" v
  && optional is_string "secretWord" v
  && optional is_string "starterPlayer" v
  && optional (is_one_of ["setup"; "pass"; "reveal"; "playing"; "end"]) "currentScreen" v.

(** A store in which every AsyncStorage call completes, and a source of
    entropy, for the examples. *)
Definition working_storage : AsyncStorage :=
  {| items := ∅; outcomes := fun _ => Completes |}.

Definition sample_entropy : Entropy :=
  fun n => {| crypto := if Nat.even n then Bytes [x2a; x07; xc3; x51] else TimedOut;
              random_mantissa := 6004799503160661 + 977 * Z.of_nat n;
              random_scale := 0 |}.

(** A store whose saved game state names a variant that does not exist. *)
Definition foreign_storage : AsyncStorage :=
  {| items := {[ STORAGE_KEY := JsonText (JObject [("selectedVariant", JString "bogus");
                                                   ("jesterIndex", JString "none")]) ]};
     outcomes := fun _ => Completes |}.

(** * Proofs *)

(** ** The definitions at work *)

Example getUint32_le_example : getUint32_le [x01; x02; x03; x04; xff] = Some 67305985.
Proof. reflexivity. Qed.

Example getUint32_le_short : getUint32_le [x01; x02; x03] = None.
Proof. reflexivity. Qed.

(** The largest value of [Math.random()], times 3, floors to 2. *)
Example secureRandom_fallback_top :
  secureRandom_fallback 3 {| crypto := TimedOut; random_mantissa := 2 ^ 53 - 1;
                             random_scale := 0 |} = Int 2.
Proof. vm_compute. reflexivity. Qed.

(** [0.5 * 7] floors to 3. *)
Example secureRandom_fallback_half :
  secureRandom_fallback 7 {| crypto := Rejected; random_mantissa := 2 ^ 52;
                             random_scale := 0 |} = Int 3.
Proof. vm_compute. reflexivity. Qed.

Example secureRandom_zero_max :
  (secureRandom 0 (fun _ => {| crypto := Bytes [x05; x00; x00; x00]; random_mantissa := 0;
                               random_scale := 0 |})).1 = NaN.
Proof. reflexivity. Qed.

Example array_index_examples :
  array_index "10" = Some 10%N /\ array_index "0" = Some 0%N
  /\ array_index "01" = None /\ array_index "4294967295" = None
  /\ array_index "comida" = None.
Proof. repeat split; vm_compute; reflexivity. Qed.

(** Integer-like keys come first, in ascending order. *)
Example prop_set_order :
  prop_set "2" 1 (prop_set "b" 2 (prop_set "10" 3 (prop_set "a" 4 [])))
  = [("2", 1); ("10", 3); ("a", 4); ("b", 2)].
Proof. vm_compute. reflexivity. Qed.

Example Object_entries_array :
  Object_entries (JArray [JNull; JBool true]) = [("0", JNull); ("1", JBool true)].
Proof. vm_compute. reflexivity. Qed.

Example initial_mixta_length :
  length <$> mixta_words (initial_store working_storage) = Some 298%nat.
Proof. vm_compute. reflexivity. Qed.

(** Only what differs from the defaults is persisted. *)
Example updateCategoryWords_saved :
  items (storage (updateCategoryWords "comida" ["Mole"] (initial_store working_storage)))
    !! CUSTOM_CATEGORIES_KEY
  = Some (JsonText (JObject [("comida", JObject [("emoji", JString "🍕");
                                                 ("name", JString "Comida");
                                                 ("words", JArray [JString "Mole"])])])).
Proof. vm_compute. reflexivity. Qed.

Example createCategory_existing_key :
  (createCategory "comida" "Otra" "X" [] (initial_store working_storage)).1 = false
  /\ (deleteCategory "comida" (initial_store working_storage)).1 = false.
Proof. split; vm_compute; reflexivity. Qed.

(** A round of the variant [chaos] with six players. *)
Example startNewGame_chaos :
  (fun r => (shuffledPlayers r, impostorIndices r, jesterIndex r, role <$> playerRoles r))
    <$> (fst <$> startNewGame ["Ana"; "Bea"; "Cid"; "Dan"; "Eva"; "Fay"] "animales" chaos
                   (initial_store working_storage) sample_entropy)
  = Some (["Bea"; "Ana"; "Fay"; "Cid"; "Dan"; "Eva"], [4; 0], 3,
          [impostor; citizen; citizen; jester_role; impostor; citizen]).
Proof. vm_compute. reflexivity. Qed.

(** ** Binary64 rounding of [Math.random() * max] *)

(** The exponent [e] does not overflow: the test [e <=? emax - prec] of
    [binary_round_aux] succeeds. *)
Ltac exponent_in_range e :=
  replace (e <=? 1024 - 53) with true by (symmetry; apply Z.leb_le; lia).

Lemma digits2_pos_size p : digits2_pos p = Pos.size p.
Proof. induction p; simpl; congruence. Qed.

Lemma digits2_pos_bounds p :
  2 ^ (Zpos (digits2_pos p) - 1) <= Zpos p < 2 ^ Zpos (digits2_pos p).
Proof.
  rewrite digits2_pos_size. split.
  - pose proof (Pos.size_le p) as H.
    assert (Hz : (2 ^ Zpos (Pos.size p) <= 2 * Zpos p)).
    { rewrite <- Pos2Z.inj_pow. lia. }
    replace (Zpos (Pos.size p)) with (Z.succ (Zpos (Pos.size p) - 1)) in Hz by lia.
    rewrite Z.pow_succ_r in Hz by lia. lia.
  - pose proof (Pos.size_gt p) as H. rewrite <- Pos2Z.inj_pow. lia.
Qed.

Lemma Zdigits2_bounds q : 0 < q -> 2 ^ (Zdigits2 q - 1) <= q < 2 ^ Zdigits2 q.
Proof. destruct q; try lia. intros _. apply digits2_pos_bounds. Qed.

Lemma Zdigits2_le q k : 0 <= k -> 0 <= q < 2 ^ k -> Zdigits2 q <= k.
Proof.
  intros Hk [Hq0 Hq]. destruct (Z.eq_dec q 0) as [->|]; [simpl; lia|].
  pose proof (Zdigits2_bounds q ltac:(lia)) as [Hl _].
  destruct (Z_le_gt_dec (Zdigits2 q) k) as [|Hgt]; [done|].
  assert (2 ^ k <= 2 ^ (Zdigits2 q - 1)) by (apply Z.pow_le_mono_r; lia). lia.
Qed.

Lemma Zdigits2_ge q k : 0 <= k -> 2 ^ k <= q -> k + 1 <= Zdigits2 q.
Proof.
  intros Hk Hq. assert (0 < q) by (pose proof (Z.pow_pos_nonneg 2 k); lia).
  pose proof (Zdigits2_bounds q ltac:(lia)) as [_ Hu].
  destruct (Z_le_gt_dec (k + 1) (Zdigits2 q)) as [|Hgt]; [done|].
  assert (2 ^ Zdigits2 q <= 2 ^ k) by (apply Z.pow_le_mono_r; lia). lia.
Qed.

(** Invariant of the right shifts performed by [shr]: after [k] one-bit
    shifts of [m] the record holds the quotient, and its round bit is set
    only when the discarded part is at least half a unit. *)
Definition shr_inv (m k : Z) (mrs : shr_record) : Prop :=
  shr_m mrs = m / 2 ^ k /\ (shr_r mrs = true -> 0 < k /\ 2 ^ (k - 1) <= m mod 2 ^ k).

Lemma shr_1_nonneg q r s :
  0 <= q ->
  shr_m (shr_1 (Build_shr_record q r s)) = q / 2 /\
  shr_r (shr_1 (Build_shr_record q r s)) = Z.odd q.
Proof.
  intros Hq. rewrite <- Z.div2_div.
  destruct q as [|p|p]; [done| |lia]. by destruct p.
Qed.

Lemma shr_1_inv m k mrs :
  0 <= m -> 0 <= k -> shr_inv m k mrs -> shr_inv m (k + 1) (shr_1 mrs).
Proof.
  intros Hm Hk [Hq _]. destruct mrs as [q r s]. simpl in Hq.
  assert (Hpk : 0 < 2 ^ k) by (apply Z.pow_pos_nonneg; lia).
  assert (Hq0 : 0 <= q) by (subst q; apply Z.div_pos; lia).
  assert (Hpow : 2 ^ (k + 1) = 2 ^ k * 2) by (rewrite Z.pow_add_r by lia; reflexivity).
  assert (Hdd : m / 2 ^ (k + 1) = q / 2).
  { rewrite Hpow, <- Z.div_div by lia. by subst q. }
  pose proof (Z.div_mod m (2 ^ k) ltac:(lia)) as Hdm.
  pose proof (Z.mod_pos_bound m (2 ^ k) ltac:(lia)) as Hmb.
  pose proof (Z.div_mod m (2 ^ (k + 1)) ltac:(lia)) as Hdm'.
  rewrite <- Hq in Hdm. rewrite Hdd in Hdm'.
  destruct (shr_1_nonneg q r s Hq0) as [Hm1 Hr1].
  split; [by rewrite Hm1, Hdd|].
  rewrite Hr1. intros Hodd. replace (k + 1 - 1) with k by lia. split; [lia|].
  rewrite Z.odd_spec in Hodd. destruct Hodd as [h Hh].
  assert (q / 2 = h) by (symmetry; apply (Z.div_unique _ 2 _ 1); lia).
  nia.
Qed.

Lemma iter_pos_shr_inv m p : 0 <= m ->
  forall k mrs, 0 <= k -> shr_inv m k mrs -> shr_inv m (k + Zpos p) (SpecFloat.iter_pos shr_1 p mrs).
Proof.
  intros Hm. induction p as [p IH|p IH|]; intros k mrs Hk Hinv; simpl.
  - replace (k + Zpos p~1) with (k + 1 + Zpos p + Zpos p) by lia.
    apply IH; [lia|]. apply IH; [lia|]. by apply shr_1_inv.
  - replace (k + Zpos p~0) with (k + Zpos p + Zpos p) by lia.
    apply IH; [lia|]. by apply IH.
  - by apply shr_1_inv.
Qed.

Lemma shr_inv_init m : shr_inv m 0 (shr_record_of_loc m loc_Exact).
Proof. split; simpl; [by rewrite Z.div_1_r | done]. Qed.

(** Rounding to nearest after a shift by [s] bits overshoots the exact
    value by at most half a unit. *)
Lemma round_after_shift m s mrs :
  0 <= m -> 0 < s -> shr_inv m s mrs ->
  let q' := round_nearest_even (shr_m mrs) (loc_of_shr_record mrs) in
  m / 2 ^ s <= q' <= m / 2 ^ s + 1 /\ q' * 2 ^ s <= m + 2 ^ (s - 1).
Proof.
  intros Hm Hs [Hq Hr]. destruct mrs as [q r st]. simpl in *.
  assert (Hps : 0 < 2 ^ s) by (apply Z.pow_pos_nonneg; lia).
  assert (Hps1 : 0 < 2 ^ (s - 1)) by (apply Z.pow_pos_nonneg; lia).
  assert (Hpow : 2 ^ s = 2 * 2 ^ (s - 1)).
  { replace s with (Z.succ (s - 1)) at 1 by lia. rewrite Z.pow_succ_r by lia. done. }
  pose proof (Z.div_mod m (2 ^ s) ltac:(lia)) as Hdm.
  pose proof (Z.mod_pos_bound m (2 ^ s) ltac:(lia)) as Hmb.
  rewrite <- Hq in *.
  destruct r, st; simpl.
  - destruct (Hr eq_refl). nia.
  - destruct (Hr eq_refl). destruct (Z.even q); nia.
  - nia.
  - nia.
Qed.

Lemma shr_fexp_exact m e :
  fexp 53 1024 (Zdigits2 m + e) - e <= 0 ->
  shr_fexp 53 1024 m e loc_Exact = (Build_shr_record m false false, e).
Proof.
  intros Hs. unfold shr_fexp, shr. simpl shr_record_of_loc.
  destruct (fexp 53 1024 (Zdigits2 m + e) - e) eqn:E; [done|lia|done].
Qed.

Lemma shr_fexp_shift m e :
  0 <= m -> 0 < fexp 53 1024 (Zdigits2 m + e) - e ->
  exists mrs, shr_fexp 53 1024 m e loc_Exact
              = (mrs, e + (fexp 53 1024 (Zdigits2 m + e) - e))
              /\ shr_inv m (fexp 53 1024 (Zdigits2 m + e) - e) mrs.
Proof.
  intros Hm Hs. unfold shr_fexp, shr.
  destruct (fexp 53 1024 (Zdigits2 m + e) - e) as [|sp|sp] eqn:E; try lia.
  eexists; split; [reflexivity|].
  apply (iter_pos_shr_inv m sp Hm 0); [lia|apply shr_inv_init].
Qed.

Lemma shiftl_scaled a e n :
  0 <= n -> 0 <= e + n -> Z.shiftl a e = (a * 2 ^ (e + n)) / 2 ^ n.
Proof.
  intros Hn Hen. destruct (Z_le_gt_dec 0 e).
  - rewrite Z.shiftl_mul_pow2, Z.pow_add_r, Z.mul_assoc by lia.
    rewrite Z.div_mul; [done|]. apply Z.pow_nonzero; lia.
  - rewrite Z.shiftl_div_pow2 by lia.
    replace n with ((e + n) + (- e)) at 2 by lia.
    rewrite (Z.pow_add_r 2 (e + n) (- e)) by lia.
    rewrite (Z.mul_comm a), Z.div_mul_cancel_l; [done| |]; apply Z.pow_nonzero; lia.
Qed.

Lemma fexp_unfold e : fexp 53 1024 e = Z.max (e - 53) (-1074).
Proof. reflexivity. Qed.

(** The product mantissa [p] at exponent [-n], rounded to binary64 and then
    floored: the integer obtained is [W / 2^n] for a scaled value [W] that
    either stays below one unit or exceeds [p] by a relative 2^-53 at most. *)
Lemma binary_round_aux_floor p n :
  0 <= n -> Zpos p < 2 ^ (n + 53) ->
  exists W, 0 <= W /\
    Math_floor (binary_round_aux 53 1024 false (Zpos p) (- n) loc_Exact) = Int (W / 2 ^ n) /\
    (W < 2 ^ n \/ W * 2 ^ 53 <= Zpos p * (2 ^ 53 + 1)).
Proof.
  intros Hn Hp.
  pose proof (digits2_pos_bounds p) as [HDl HDu].
  assert (HD : Zdigits2 (Zpos p) <= n + 53) by (apply Zdigits2_le; lia).
  unfold binary_round_aux.
  set (s := fexp 53 1024 (Zdigits2 (Zpos p) + - n) - - n).
  assert (Hs : s = Z.max (Zdigits2 (Zpos p) - 53) (n - 1074)).
  { unfold s. rewrite fexp_unfold. lia. }
  destruct (Z_le_gt_dec s 0) as [Hs0|Hs0].
  - (* no bit is lost *)
    rewrite shr_fexp_exact by done. simpl shr_m. simpl loc_of_shr_record.
    simpl round_nearest_even. rewrite shr_fexp_exact by done. simpl shr_m.
    exponent_in_range (- n).
    exists (Zpos p). split; [lia|]. split; [|right; lia].
    simpl Math_floor. f_equal. rewrite (shiftl_scaled _ _ n) by lia.
    replace (- n + n) with 0 by lia. by rewrite Z.mul_1_r.
  - destruct (shr_fexp_shift (Zpos p) (- n)) as (mrs & -> & Hinv); [lia|fold s; lia|].
    fold s in Hinv |- *.
    pose proof (round_after_shift (Zpos p) s mrs ltac:(lia) ltac:(lia) Hinv) as Hround.
    set (q' := round_nearest_even (shr_m mrs) (loc_of_shr_record mrs)) in *.
    simpl in Hround. destruct Hround as [[Hql Hqu] HW].
    assert (Hps : 0 < 2 ^ s) by (apply Z.pow_pos_nonneg; lia).
    assert (Hps1 : 0 < 2 ^ (s - 1)) by (apply Z.pow_pos_nonneg; lia).
    assert (Hq0 : 0 <= Zpos p / 2 ^ s) by (apply Z.div_pos; lia).
    assert (Hqlt : Zpos p / 2 ^ s < 2 ^ 53).
    { apply Z.div_lt_upper_bound; [lia|]. rewrite <- Z.pow_add_r by lia.
      eapply Z.lt_le_trans; [apply HDu|]. apply Z.pow_le_mono_r; simpl Zdigits2 in Hs; lia. }
    exists (q' * 2 ^ s). split; [nia|].
    assert (Hbound : q' * 2 ^ s < 2 ^ n \/ q' * 2 ^ s * 2 ^ 53 <= Zpos p * (2 ^ 53 + 1)).
    { simpl Zdigits2 in Hs.
      destruct (Z_le_gt_dec (n - 1074) (Z.pos (digits2_pos p) - 53)).
      - right. assert (2 ^ (s - 1) * 2 ^ 53 <= Zpos p); [|nia].
        rewrite <- Z.pow_add_r by lia.
        replace (s - 1 + 53) with (Z.pos (digits2_pos p) - 1) by lia. done.
      - left. assert (Zpos p < 2 ^ (s - 1) * 2 ^ 53).
        { rewrite <- Z.pow_add_r by lia. eapply Z.lt_le_trans; [apply HDu|].
          apply Z.pow_le_mono_r; lia. }
        assert (2 ^ n = 2 ^ (s - 1) * 2 ^ 1075).
        { rewrite <- Z.pow_add_r by lia. f_equal. lia. }
        assert (2 ^ 53 + 1 < 2 ^ 1075).
        { assert (2 ^ 54 <= 2 ^ 1075) by (apply Z.pow_le_mono_r; lia).
          assert (2 ^ 54 = 2 * 2 ^ 53) by done. lia. }
        nia. }
    split; [|done].
    destruct (Z_le_gt_dec (fexp 53 1024 (Zdigits2 q' + (- n + s)) - (- n + s)) 0) as [Hs2|Hs2].
    + rewrite shr_fexp_exact by done. simpl shr_m.
      destruct q' as [|qp|qp] eqn:Eq; [| |lia].
      * simpl. by rewrite Z.div_0_l by lia.
      * exponent_in_range (- n + s).
        simpl Math_floor. f_equal. rewrite (shiftl_scaled _ _ n) by lia.
        by replace (- n + s + n) with s by lia.
    + (* the rounded mantissa reached 2^53 and is renormalised *)
      assert (Hq54 : q' = 2 ^ 53).
      { rewrite fexp_unfold in Hs2.
        assert (54 <= Zdigits2 q') by lia.
        destruct (Z.eq_dec q' 0) as [E0|]; [rewrite E0 in *; simpl in *; lia|].
        pose proof (Zdigits2_bounds q' ltac:(lia)) as [Hl _].
        assert (2 ^ 53 <= 2 ^ (Zdigits2 q' - 1)) by (apply Z.pow_le_mono_r; lia). lia. }
      rewrite Hq54 in *.
      destruct (shr_fexp_shift (2 ^ 53) (- n + s)) as (mrs2 & -> & [Hm2 _]); [lia|lia|].
      rewrite Hm2. rewrite fexp_unfold.
      change (Zdigits2 (2 ^ 53)) with 54.
      replace (Z.max (54 + (- n + s) - 53) (-1074) - (- n + s)) with 1 by lia.
      change (2 ^ 53 / 2 ^ 1) with (Zpos (2 ^ 52)).
      exponent_in_range (- n + s + 1).
      simpl Math_floor. f_equal. rewrite (shiftl_scaled _ _ n) by lia.
      replace (- n + s + 1 + n) with (1 + s) by lia.
      rewrite Z.pow_add_r by lia. f_equal. change (2 ^ 1) with 2.
      change (2 ^ 53) with (Zpos (2 ^ 52) * 2). lia.
Qed.

Lemma Pos_iter_xO m d : Zpos (Pos.iter xO m d) = Zpos m * 2 ^ Zpos d.
Proof.
  induction d as [|d IH] using Pos.peano_ind.
  - simpl. lia.
  - rewrite Pos.iter_succ, Pos2Z.inj_xO, IH, Pos2Z.inj_succ, Z.pow_succ_r by lia. lia.
Qed.

Lemma digits2_pos_iter_xO m d :
  Zpos (digits2_pos (Pos.iter xO m d)) = Zpos (digits2_pos m) + Zpos d.
Proof.
  induction d as [|d IH] using Pos.peano_ind.
  - simpl. lia.
  - rewrite Pos.iter_succ. simpl digits2_pos. lia.
Qed.

(** A value with at most 53 significant bits and an exponent in range is
    represented exactly by [binary_round]. *)
Lemma binary_round_exact sx m e :
  Zpos m < 2 ^ 53 -> -1074 <= e <= 0 ->
  exists m' e', binary_round 53 1024 sx m e = S754_finite sx m' e'
    /\ -1074 <= e' <= e /\ Zpos m' = Zpos m * 2 ^ (e - e').
Proof.
  intros Hm He.
  assert (HD : Zpos (digits2_pos m) <= 53) by (apply (Zdigits2_le (Zpos m)); lia).
  unfold binary_round, shl_align. rewrite fexp_unfold.
  destruct (Z.max (Zpos (digits2_pos m) + e - 53) (-1074) - e) as [|d|d] eqn:E; [|lia|].
  - unfold binary_round_aux.
    rewrite shr_fexp_exact by (rewrite fexp_unfold; simpl Zdigits2; lia).
    simpl. rewrite shr_fexp_exact by (rewrite fexp_unfold; simpl Zdigits2; lia).
    simpl shr_m. exponent_in_range (e).
    exists m, e. split; [done|]. split; [lia|]. rewrite Z.sub_diag. lia.
  - set (e' := Z.max (Zpos (digits2_pos m) + e - 53) (-1074)) in *.
    assert (Hsh : fexp 53 1024 (Zdigits2 (Zpos (Pos.iter xO m d)) + e') - e' <= 0).
    { rewrite fexp_unfold. simpl Zdigits2. rewrite digits2_pos_iter_xO. lia. }
    unfold binary_round_aux. rewrite shr_fexp_exact by done.
    simpl. rewrite shr_fexp_exact by done. simpl shr_m.
    exponent_in_range (e').
    exists (Pos.iter xO m d), e'. split; [done|]. split; [lia|].
    rewrite Pos_iter_xO. f_equal. f_equal. lia.
Qed.

(** [Math.floor(Math.random() * max)] is an integer of [[0, max)]. *)
Lemma secureRandom_fallback_range max d :
  0 < max < 2 ^ 53 ->
  exists z, secureRandom_fallback max d = Int z /\ 0 <= z < max.
Proof.
  intros Hmax. unfold secureRandom_fallback, Math_random, Number_of_Z, binary_normalize.
  set (e0 := - 53 - Z.of_nat (Nat.min (random_scale d) 1021)).
  assert (He0 : -1074 <= e0 <= -53) by lia.
  pose proof (Z.mod_pos_bound (random_mantissa d) (2 ^ 53) ltac:(lia)) as HM0.
  destruct max as [|pm|pm]; try lia.
  destruct (binary_round_exact false pm 0) as (my & ey & -> & Hey & Hmy); [lia|lia|].
  destruct (random_mantissa d mod 2 ^ 53) as [|p0|p0] eqn:EM; [|clear EM|lia].
  { exists 0. split; [done|lia]. }
  destruct (binary_round_exact false p0 e0) as (mx & ex & -> & Hex & Hmx); [lia|lia|].
  simpl SFmul.
  set (n := - (ex + ey)).
  assert (Hn : 53 <= n) by lia.
  replace (ex + ey) with (- n) by lia.
  set (T := 2 ^ (e0 - ex - ey)).
  assert (HT : 0 < T) by (apply Z.pow_pos_nonneg; lia).
  assert (HP : Zpos (mx * my) = Zpos p0 * Zpos pm * T).
  { rewrite Pos2Z.inj_mul, Hmx, Hmy. unfold T.
    replace (e0 - ex - ey) with ((e0 - ex) + (0 - ey)) by lia.
    rewrite Z.pow_add_r by lia. lia. }
  assert (H2n : 2 ^ n = T * 2 ^ (- e0)).
  { unfold T. rewrite <- Z.pow_add_r by lia. f_equal. lia. }
  assert (HU : 2 ^ 53 <= 2 ^ (- e0)) by (apply Z.pow_le_mono_r; lia).
  set (K := 2 ^ 53) in *. set (U := 2 ^ (- e0)) in *.
  assert (HK : 0 < K) by done.
  destruct (binary_round_aux_floor (mx * my) n) as (W & HW0 & -> & HW).
  { lia. }
  { rewrite HP, Z.pow_add_r, H2n by lia. fold K. clearbody K U T.
    assert (Zpos p0 * Zpos pm < U * K) by nia. nia. }
  exists (W / 2 ^ n). split; [done|].
  assert (Hpn : 0 < 2 ^ n) by (apply Z.pow_pos_nonneg; lia).
  split; [apply Z.div_pos; lia|].
  apply Z.div_lt_upper_bound; [lia|].
  destruct HW as [HW|HW]; [nia|].
  rewrite HP in HW. rewrite H2n. fold K in HW.
  clearbody K U T.
  assert (Hp0 : Zpos p0 * (K + 1) < K * K) by nia.
  assert (HX : 0 < Zpos pm * T) by nia.
  assert (HWK : W * K < Zpos pm * T * (K * K)).
  { eapply Z.le_lt_trans; [apply HW|].
    replace (Zpos p0 * Zpos pm * T * (K + 1)) with (Zpos pm * T * (Zpos p0 * (K + 1))) by ring.
    apply Z.mul_lt_mono_pos_l; done. }
  assert (HKU : Zpos pm * T * (K * K) <= Zpos pm * (T * U) * K) by nia.
  nia.
Qed.

(** ** [secureRandom] *)

Lemma getUint32_le_bounds buffer v : getUint32_le buffer = Some v -> 0 <= v < 2 ^ 32.
Proof.
  destruct buffer as [|b0 [|b1 [|b2 [|b3 tl]]]]; simpl; try discriminate.
  intros [= <-].
  pose proof (Byte.to_N_bounded b0). pose proof (Byte.to_N_bounded b1).
  pose proof (Byte.to_N_bounded b2). pose proof (Byte.to_N_bounded b3).
  change (2 ^ 32) with 4294967296. lia.
Qed.

Lemma js_rem_range a max : 0 <= a -> 0 < max -> exists z, js_rem a max = Int z /\ 0 <= z < max.
Proof.
  intros Ha Hmax. unfold js_rem. case_decide; [lia|].
  eexists; split; [reflexivity|]. apply Z.rem_bound_pos; lia.
Qed.

Lemma secureRandom_rest max e : snd (secureRandom max e) = rest e.
Proof.
  unfold secureRandom. destruct (crypto (e 0%nat)); [|done..].
  by destruct (getUint32_le _).
Qed.

Lemma secureRandom_range max e :
  0 < max < 2 ^ 53 ->
  exists z, secureRandom max e = (Int z, rest e) /\ 0 <= z < max.
Proof.
  intros Hmax.
  destruct (secureRandom_fallback_range max (e 0%nat) Hmax) as (zf & Hzf & Hf).
  unfold secureRandom. destruct (crypto (e 0%nat)) as [randomBytes| |].
  - destruct (getUint32_le randomBytes) as [v|] eqn:Ev.
    + apply getUint32_le_bounds in Ev.
      destruct (js_rem_range v max) as (z & -> & Hz); [lia..|]. eauto.
    + rewrite Hzf. eauto.
  - rewrite Hzf. eauto.
  - rewrite Hzf. eauto.
Qed.

(** Running a draw inside [M]. *)
Lemma await_secureRandom max e :
  0 < max < 2 ^ 53 ->
  exists z, await (secureRandom max) e = Some (Int z, rest e) /\ 0 <= z < max.
Proof.
  intros Hmax. destruct (secureRandom_range max e Hmax) as (z & Hz & Hr).
  exists z. unfold await. by rewrite Hz.
Qed.

(** ** [shuffleArray] *)

Lemma insert_swap_head {T} (a : list T) (j : nat) (x aj : T) :
  a !! j = Some aj -> aj :: <[j := x]> a ≡ₚ x :: a.
Proof.
  revert j. induction a as [|y a IH]; intros [|j] Hj; simplify_eq/=.
  - apply perm_swap.
  - rewrite (perm_swap y aj), (IH j Hj). apply perm_swap.
Qed.

Lemma insert_insert_swap {T} (a : list T) (i j : nat) (ai aj : T) :
  a !! i = Some ai -> a !! j = Some aj -> <[j := ai]> (<[i := aj]> a) ≡ₚ a.
Proof.
  revert i j. induction a as [|x a IH]; intros [|i] [|j] Hi Hj; simplify_eq/=.
  - done.
  - by apply insert_swap_head.
  - by apply insert_swap_head.
  - f_equiv. by apply IH.
Qed.

Lemma swap_defined {T} (a : list T) (i : nat) (z : Z) :
  (i < length a)%nat -> 0 <= z <= Z.of_nat i ->
  exists a', swap a i (Int z) = Some a' /\ a' ≡ₚ a.
Proof.
  intros Hi Hz. unfold swap, at_index. rewrite decide_True by lia.
  destruct (lookup_lt_is_Some_2 a (Z.to_nat z)) as [aj Haj]; [lia|].
  destruct (lookup_lt_is_Some_2 a i) as [ai Hai]; [lia|].
  rewrite Haj, Hai. eexists; split; [done|]. by apply insert_insert_swap.
Qed.

Lemma shuffle_from_perm {T} (i : nat) :
  forall (shuffled : list T) (e : Entropy),
    (i < length shuffled)%nat -> Z.of_nat (length shuffled) <= MAX_ARRAY_LENGTH ->
    exists result e', shuffle_from i shuffled e = Some (result, e') /\ result ≡ₚ shuffled.
Proof.
  induction i as [|i IH]; intros shuffled e Hi Hlen.
  - by exists shuffled, e.
  - cbn [shuffle_from]. unfold bind at 1.
    destruct (await_secureRandom (Z.of_nat (S i) + 1) e) as (z & -> & Hz).
    { unfold MAX_ARRAY_LENGTH in Hlen. change (2 ^ 53) with 9007199254740992. lia. }
    unfold bind at 1.
    destruct (swap_defined shuffled (S i) z) as (a' & -> & Ha'); [lia..|].
    simpl. destruct (IH a' (rest e)) as (result & e' & -> & Hres).
    + apply Permutation_length in Ha'. lia.
    + apply Permutation_length in Ha'. lia.
    + exists result, e'. split; [done|]. by rewrite Hres.
Qed.

Lemma shuffleArray_perm {T} (array : list T) (e : Entropy) :
  Z.of_nat (length array) <= MAX_ARRAY_LENGTH ->
  exists result e', shuffleArray array e = Some (result, e')
    /\ result ≡ₚ array
    /\ ((length array <= 1)%nat -> result = array).
Proof.
  intros Hlen. unfold shuffleArray.
  destruct array as [|x [|y array]].
  - exists [], e. done.
  - exists [x], e. done.
  - destruct (shuffle_from_perm (length (x :: y :: array) - 1) (x :: y :: array) e)
      as (result & e' & Hrun & Hperm); [simpl; lia|done|].
    exists result, e'. repeat split; [done|done|]. simpl. lia.
Qed.

(** ** [selectUniqueIndices] *)

Lemma delete_lookup_perm {T} (l : list T) (p : nat) (x : T) :
  l !! p = Some x -> l ≡ₚ x :: delete p l.
Proof.
  intros Hp. rewrite <- (take_drop_middle l p x Hp) at 1.
  rewrite delete_take_drop. by rewrite Permutation_middle.
Qed.

Lemma pool_elem max exclude i : i ∈ pool max exclude <-> 0 <= i < max /\ i ∉ exclude.
Proof.
  unfold pool. rewrite list_elem_of_filter, list_elem_of_fmap. split.
  - intros (Hex & n & -> & Hn). apply elem_of_seq in Hn. split; [lia|done].
  - intros (Hi & Hex). split; [done|]. exists (Z.to_nat i). split; [lia|].
    apply elem_of_seq. lia.
Qed.

Lemma pool_NoDup max exclude : NoDup (pool max exclude).
Proof.
  unfold pool. apply NoDup_filter, NoDup_fmap_2; [|apply NoDup_seq].
  intros x y. lia.
Qed.

Lemma pool_length max exclude : (length (pool max exclude) <= Z.to_nat max)%nat.
Proof.
  unfold pool. etrans; [apply length_filter|]. by rewrite length_fmap, length_seq.
Qed.

Lemma select_loop_spec (remaining : nat) :
  forall (indices available : list Z) (e : Entropy),
    NoDup (indices ++ available) ->
    Z.of_nat (length available) <= MAX_ARRAY_LENGTH ->
    exists result e', select_loop remaining indices available e = Some (result, e')
      /\ NoDup result
      /\ result ⊆ indices ++ available
      /\ length result = (length indices + Nat.min remaining (length available))%nat.
Proof.
  induction remaining as [|remaining IH]; intros indices available e Hnd Hlen.
  - exists indices, e. simpl. repeat split.
    + by apply NoDup_app in Hnd as (? & _ & _).
    + set_solver.
    + lia.
  - destruct available as [|a av].
    + exists indices, e. simpl. repeat split.
      * by rewrite app_nil_r in Hnd.
      * set_solver.
      * lia.
    + cbn [select_loop]. set (available := a :: av) in *.
      assert (Hpos : (0 < length available)%nat) by (simpl; lia).
      unfold bind at 1.
      destruct (await_secureRandom (Z.of_nat (length available)) e) as (p & -> & Hp).
      { unfold MAX_ARRAY_LENGTH in Hlen. change (2 ^ 53) with 9007199254740992. lia. }
      unfold bind at 1. unfold at_index. rewrite decide_True by lia.
      destruct (lookup_lt_is_Some_2 available (Z.to_nat p)) as [picked Hpicked]; [lia|].
      rewrite Hpicked. simpl defined. unfold ret at 1.
      pose proof (delete_lookup_perm _ _ _ Hpicked) as Hperm.
      destruct (IH (indices ++ [picked]) (delete (Z.to_nat p) available) (rest e))
        as (result & e' & -> & Hnd' & Hsub & Hlen').
      * rewrite <- app_assoc. simpl. by rewrite <- Hperm.
      * rewrite length_delete by eauto. lia.
      * exists result, e'. split; [done|]. split; [done|]. split.
        -- intros x Hx. apply Hsub in Hx. rewrite <- app_assoc in Hx. simpl in Hx.
           by rewrite <- Hperm in Hx.
        -- rewrite Hlen', length_app, length_delete by eauto. simpl length.
           apply lookup_lt_Some in Hpicked. lia.
Qed.

Lemma Array_from_length_ok max :
  max <= MAX_ARRAY_LENGTH -> Array_from_length max = Some (Z.of_nat <$> seq 0 (Z.to_nat max)).
Proof. intros. unfold Array_from_length. by rewrite decide_True. Qed.

Lemma selectUniqueIndices_run count max exclude e :
  0 <= max <= MAX_ARRAY_LENGTH ->
  exists indices e', selectUniqueIndices count max exclude e = Some (indices, e')
    /\ NoDup indices
    /\ indices ⊆ pool max exclude
    /\ length indices = Nat.min (Z.to_nat count) (length (pool max exclude)).
Proof.
  intros Hmax. unfold selectUniqueIndices, bind at 1.
  rewrite Array_from_length_ok by lia. simpl. fold (pool max exclude).
  destruct (select_loop_spec (Z.to_nat count) [] (pool max exclude) e)
    as (indices & e' & Hrun & Hnd & Hsub & Hlen).
  - apply pool_NoDup.
  - pose proof (pool_length max exclude). lia.
  - exists indices, e'. done.
Qed.

(** Excluding [k] distinct values leaves at least [max - k] indices. *)
Lemma pool_length_ge max exclude :
  0 <= max -> (Z.to_nat max - length exclude <= length (pool max exclude))%nat.
Proof.
  intros Hmax. unfold pool.
  set (all := Z.of_nat <$> seq 0 (Z.to_nat max)).
  assert (Hall : length all = Z.to_nat max) by (unfold all; by rewrite length_fmap, length_seq).
  pose proof (filter_app_complement (fun i => i ∉ exclude) all) as Hperm.
  apply Permutation_length in Hperm. rewrite length_app in Hperm.
  assert (Hin : (length (filter (fun i : Z => ¬ (i ∉ exclude)) all) <= length exclude)%nat).
  { apply submseteq_length, NoDup_submseteq.
    - apply NoDup_filter. unfold all. apply NoDup_fmap_2; [intros ??; lia|apply NoDup_seq].
    - intros x [Hx _]%list_elem_of_filter. by destruct (decide (x ∈ exclude)). }
  lia.
Qed.

(** ** [startNewGame]: the role records *)

Lemma length_filter_fmap {A B} (f : A -> B) (P : B -> Prop) `{!forall x, Decision (P x)}
    (l : list A) :
  length (filter P (f <$> l)) = length (filter (P ∘ f) l).
Proof.
  induction l as [|x l IH]; [done|]. rewrite fmap_cons, !filter_cons. simpl.
  destruct (decide (P (f x))); simpl; by rewrite IH.
Qed.

(** Distinct indices below [n] are met exactly once along [0 .. n-1]. *)
Lemma length_filter_indices (indices : list Z) (n : nat) :
  NoDup indices -> (forall i, i ∈ indices -> 0 <= i < Z.of_nat n) ->
  length (filter (fun index => Z.of_nat index ∈ indices) (seq 0 n)) = length indices.
Proof.
  intros Hnd Hrange.
  rewrite <- (length_fmap Z.of_nat). apply Permutation_length, NoDup_Permutation.
  - apply NoDup_fmap_2; [intros ??; lia|]. apply NoDup_filter, NoDup_seq.
  - done.
  - intros i. rewrite list_elem_of_fmap. split.
    + by intros (k & -> & [Hk _]%list_elem_of_filter).
    + intros Hi. exists (Z.to_nat i). pose proof (Hrange i Hi).
      split; [lia|]. apply list_elem_of_filter. split.
      * by rewrite Z2Nat.id by lia.
      * apply elem_of_seq. lia.
Qed.

Lemma length_filter_single (P : nat -> Prop) `{!forall x, Decision (P x)} (n k : nat) :
  (k < n)%nat -> (forall i, P i <-> i = k) -> length (filter P (seq 0 n)) = 1%nat.
Proof.
  intros Hk HP. change 1%nat with (length [k]).
  apply Permutation_length, NoDup_Permutation.
  - apply NoDup_filter, NoDup_seq.
  - apply NoDup_singleton.
  - intros i. rewrite list_elem_of_filter, elem_of_seq, HP, list_elem_of_singleton. lia.
Qed.

Lemma length_filter_none {A} (P : A -> Prop) `{!forall x, Decision (P x)} (l : list A) :
  (forall x, x ∈ l -> ¬ P x) -> length (filter P l) = 0%nat.
Proof.
  intros HP. induction l as [|x l IH]; [done|].
  rewrite filter_cons. destruct (decide (P x)) as [Hx|_].
  - exfalso. apply (HP x); [left|done].
  - apply IH. intros y Hy. apply HP. by right.
Qed.

Section role_at_facts.
Context (variantConfig : GameVariantConfig) (players : list string)
        (indices : list Z) (jesterIx : Z).

Let r := role_at variantConfig players indices jesterIx.

Lemma role_at_impostor index : role (r index) = impostor <-> Z.of_nat index ∈ indices.
Proof.
  unfold r, role_at. case_bool_decide; [done|].
  case_bool_decide; simpl; split; (done || congruence).
Qed.

Lemma role_at_jester index :
  role (r index) = jester_role <-> (Z.of_nat index ∉ indices) /\ Z.of_nat index = jesterIx.
Proof.
  unfold r, role_at. case_bool_decide; [simpl; split; [done|tauto]|].
  case_bool_decide; simpl; split; (done || tauto).
Qed.

Lemma role_at_knowsWord index : knowsWord (r index) = false <-> role (r index) = impostor.
Proof.
  unfold r, role_at. case_bool_decide; [done|]. by case_bool_decide.
Qed.

Lemma role_at_partner_other index :
  role (r index) <> impostor -> partnerName (r index) = None.
Proof.
  unfold r, role_at. case_bool_decide; [done|]. by case_bool_decide.
Qed.
End role_at_facts.

Lemma count_role_total (roles : list PlayerRoleInfo) :
  (count_role impostor roles + count_role jester_role roles + count_role citizen roles
   = length roles)%nat.
Proof.
  unfold count_role. induction roles as [|x roles IH]; [done|].
  rewrite !filter_cons. destruct (role x) eqn:E; simpl;
    repeat (case_decide; try congruence); simpl; lia.
Qed.

Lemma words_for_defined category s : has_mixta s -> is_Some (words_for category s).
Proof.
  intros (ml & mixta & wl & Hm & Hwl). unfold words_for.
  destruct (match get_property category _ _ with Some v => _ | None => None end);
    [eauto|].
  rewrite Hm. unfold words_of. rewrite Hwl. eauto.
Qed.

Lemma variant_counts variant :
  0 < impostorCount (GAME_VARIANTS variant)
  /\ impostorCount (GAME_VARIANTS variant)
     + (if hasJester (GAME_VARIANTS variant) then 1 else 0)
     < minPlayers (GAME_VARIANTS variant).
Proof. destruct variant; simpl; lia. Qed.

Lemma startNewGame_runs players category variant s e :
  has_mixta s ->
  minPlayers (GAME_VARIANTS variant) <= Z.of_nat (length players) <= MAX_ARRAY_LENGTH ->
  exists r e', startNewGame players category variant s e = Some (r, e')
               /\ Assignment variant players r.
Proof.
  intros Hmixta [Hmin Hmax]. pose proof (variant_counts variant) as [Hic Hvc].
  unfold startNewGame. set (cfg := GAME_VARIANTS variant) in *.
  unfold bind at 1.
  destruct (shuffleArray_perm players e Hmax) as (shuffled & e1 & -> & Hperm & _).
  pose proof (Permutation_length Hperm) as Hlen. rewrite Hlen.
  set (n := Z.of_nat (length players)) in *.
  unfold bind at 1.
  destruct (selectUniqueIndices_run (impostorCount cfg) n [] e1)
    as (imp & e2 & -> & Himp_nd & Himp_sub & Himp_len); [lia|].
  assert (Himp_range : forall i, i ∈ imp -> 0 <= i < n).
  { intros i Hi. apply Himp_sub, pool_elem in Hi. tauto. }
  assert (Himp_count : Z.of_nat (length imp) = impostorCount cfg).
  { pose proof (pool_length_ge n [] ltac:(lia)) as Hpool. simpl length in Hpool.
    assert (impostorCount cfg < n) by (destruct (hasJester cfg); lia). lia. }
  assert (Hjester : exists jx e3,
    (if hasJester cfg
     then let* jesterIndices := selectUniqueIndices 1 n imp in
          ret (default (-1) (jesterIndices !! 0%nat))
     else ret (-1)) e2 = Some (jx, e3)
    /\ if hasJester cfg then 0 <= jx < n /\ (jx ∉ imp) else jx = -1).
  { destruct (hasJester cfg).
    - unfold bind.
      destruct (selectUniqueIndices_run 1 n imp e2)
        as (js & e3 & -> & _ & Hjs_sub & Hjs_len); [lia|].
      pose proof (pool_length_ge n imp ltac:(lia)).
      destruct js as [|jx js]; [simpl length in *; lia|].
      exists jx, e3. split; [done|]. apply pool_elem, Hjs_sub. left.
    - by exists (-1), e2. }
  destruct Hjester as (jx & e3 & Hjrun & Hjx).
  unfold bind at 1. rewrite Hjrun.
  unfold bind at 1.
  destruct (words_for_defined category s Hmixta) as [ws ->]. simpl.
  unfold bind at 1, await at 1.
  destruct (secureRandom (Z.of_nat (length ws)) e3) as [wordIndex e4].
  unfold bind at 1, await at 1.
  destruct (secureRandom n e4) as [starterIndex e5]. unfold ret.
  eexists _, _. split; [reflexivity|].
  constructor; simpl; try done.
  rewrite imap_seq_0. by rewrite Hlen.
Qed.

Lemma Assignment_roles_lookup variant players r (index : nat) :
  Assignment variant players r -> (index < length players)%nat ->
  playerRoles r !! index
  = Some (role_at (GAME_VARIANTS variant) (shuffledPlayers r) (impostorIndices r)
                  (jesterIndex r) index).
Proof.
  intros Hasg Hi. rewrite (asg_roles _ _ _ Hasg), list_lookup_fmap.
  by rewrite lookup_seq_lt.
Qed.

Lemma Assignment_roles_elem variant players r info :
  Assignment variant players r -> info ∈ playerRoles r ->
  exists index, (index < length players)%nat
    /\ info = role_at (GAME_VARIANTS variant) (shuffledPlayers r) (impostorIndices r)
                      (jesterIndex r) index.
Proof.
  intros Hasg. rewrite (asg_roles _ _ _ Hasg), list_elem_of_fmap.
  intros (index & -> & Hin). apply elem_of_seq in Hin. exists index. split; [lia|done].
Qed.

Lemma Assignment_count_impostor variant players r :
  Assignment variant players r ->
  Z.of_nat (count_role impostor (playerRoles r)) = impostorCount (GAME_VARIANTS variant).
Proof.
  intros Hasg. rewrite <- (asg_count _ _ _ Hasg). f_equal.
  unfold count_role. rewrite (asg_roles _ _ _ Hasg), length_filter_fmap.
  rewrite <- (length_filter_indices (impostorIndices r) (length players));
    [|apply Hasg|apply Hasg].
  f_equal. apply list_filter_iff. intros index. simpl. apply role_at_impostor.
Qed.

Lemma Assignment_count_jester variant players r :
  Assignment variant players r ->
  count_role jester_role (playerRoles r)
  = if hasJester (GAME_VARIANTS variant) then 1%nat else 0%nat.
Proof.
  intros Hasg. pose proof (asg_jester _ _ _ Hasg) as Hj.
  unfold count_role. rewrite (asg_roles _ _ _ Hasg), length_filter_fmap.
  destruct (hasJester (GAME_VARIANTS variant)).
  - destruct Hj as [Hrange Hnot].
    apply (length_filter_single _ _ (Z.to_nat (jesterIndex r))); [lia|].
    intros index. simpl. rewrite role_at_jester. split.
    + intros [_ <-]. lia.
    + intros ->. rewrite Z2Nat.id by lia. done.
  - apply length_filter_none. intros index Hin. simpl. rewrite role_at_jester.
    intros [_ Heq]. lia.
Qed.

(** ** Persistence of the game configuration *)












(** The three shape checks of [isValidGameState], spelled out. *)
Lemma is_string_array_inv v :
  is_string_array (Some v) = true -> exists names, v = JArray (JString <$> names).
Proof.
  destruct v as [| | | |items|]; try done. simpl.
  induction items as [|x items IH]; intros Hall; [by exists []|].
  simpl in Hall. apply andb_true_iff in Hall as [Hx Hall].
  destruct x as [| | |name| |]; try done.
  destruct (IH Hall) as (names & [= ->]). by exists (name :: names).
Qed.

Lemma typeof_string_inv v : typeof_string (Some v) = true -> exists s, v = JString s.
Proof. destruct v; try done. eauto. Qed.

Lemma isValidGameState_shape data :
  isValidGameState data = true ->
  (forall v, json_get "players" data = Some v -> exists names, v = JArray (JString <$> names))
  /\ (forall v, json_get "selectedCategory" data = Some v -> exists s, v = JString s)
  /\ (forall v, json_get "selectedVariant" data = Some v -> exists s, v = JString s).
Proof.
  unfold isValidGameState.
  destruct (negb (truthy data) || negb (typeof_object data)); [done|].
  destruct (json_get "players" data) as [p|] eqn:Hp.
  2: destruct (json_get "selectedCategory" data) as [c|] eqn:Hc.
  1: destruct (is_string_array (Some p)) eqn:Hps; [|done];
     destruct (json_get "selectedCategory" data) as [c|] eqn:Hc.
  all: try (destruct (typeof_string (Some c)) eqn:Hcs; [|done]).
  all: destruct (json_get "selectedVariant" data) as [v|] eqn:Hv.
  all: try (destruct (typeof_string (Some v)) eqn:Hvs; [|done]).
  all: simpl; intros _; repeat split; intros x [= <-];
       auto using is_string_array_inv, typeof_string_inv.
Qed.

(** * Properties of the game store *)

(** C5. For every [max > 0] (an integer a [number] holds exactly),
    [secureRandom(max)] always returns an integer of [[0, max)] and never
    throws. On the primary path it is the first four random bytes, read as
    an unsigned little-endian 32-bit integer, modulo [max]; when the secure
    generator times out, fails, or yields too few bytes it is
    [Math.floor(Math.random() * max)]. *)
Theorem secureRandom_contract (max : Z) (e : Entropy) :
  0 < max <= MAX_SAFE_INTEGER ->
  (exists z, secureRandom max e = (Int z, rest e) /\ 0 <= z < max)
  /\ (forall b0 b1 b2 b3 more,
        crypto (e 0%nat) = Bytes (b0 :: b1 :: b2 :: b3 :: more) ->
        (secureRandom max e).1
        = Int ((Z.of_N (Byte.to_N b0) + 256 * Z.of_N (Byte.to_N b1)
                + 65536 * Z.of_N (Byte.to_N b2) + 16777216 * Z.of_N (Byte.to_N b3))
               mod max))
  /\ (crypto (e 0%nat) = TimedOut \/ crypto (e 0%nat) = Rejected
      \/ (exists randomBytes, crypto (e 0%nat) = Bytes randomBytes
                              /\ (length randomBytes < 4)%nat) ->
      (secureRandom max e).1
      = Math_floor (SFmul 53 1024 (Math_random (e 0%nat)) (Number_of_Z max))).
Proof.
  intros Hmax. unfold MAX_SAFE_INTEGER in Hmax. split; [|split].
  - apply secureRandom_range. change (2 ^ 53) with 9007199254740992. lia.
  - intros b0 b1 b2 b3 more Hc. unfold secureRandom. rewrite Hc.
    cbn [getUint32_le fst]. unfold js_rem. rewrite decide_False by lia. f_equal.
    apply Z.rem_mod_nonneg; lia.
  - intros [Hc|[Hc|(randomBytes & Hc & Hlen)]]; unfold secureRandom; rewrite Hc; try done.
    destruct randomBytes as [|b0 [|b1 [|b2 [|b3 more]]]]; try done. simpl in Hlen. lia.
Qed.

Lemma secureRandom_contract_witness :
  0 < 6 <= MAX_SAFE_INTEGER
  /\ exists z, secureRandom 6 (fun _ => {| crypto := TimedOut; random_mantissa := 2 ^ 52;
                                           random_scale := 0 |})
               = (Int z, rest (fun _ => {| crypto := TimedOut; random_mantissa := 2 ^ 52;
                                           random_scale := 0 |}))
               /\ 0 <= z < 6.
Proof.
  assert (H : 0 < 6 <= MAX_SAFE_INTEGER) by (unfold MAX_SAFE_INTEGER; lia).
  split; [exact H|].
  exact (proj1 (secureRandom_contract 6 _ H)).
Defined.

(** C3. [shuffleArray(S)] returns a permutation of [S] (same length, same
    multiset of elements) in a new array and leaves the array [S] as it
    was; an empty or single-element [S] comes back equal. *)
Theorem shuffleArray_permutation {T} (heap : gmap nat (list T)) (array : nat)
    (S : list T) (e : Entropy) :
  heap !! array = Some S ->
  Z.of_nat (length S) <= MAX_ARRAY_LENGTH ->
  exists shuffled heap' e' S',
    shuffleArray_ref array heap e = Some ((shuffled, heap'), e')
    /\ shuffleArray S e = Some (S', e')
    /\ heap' !! shuffled = Some S'
    /\ S' ≡ₚ S
    /\ length S' = length S
    /\ shuffled <> array
    /\ heap' !! array = Some S
    /\ (forall l, l <> shuffled -> heap' !! l = heap !! l)
    /\ ((length S <= 1)%nat -> S' = S).
Proof.
  intros Harr Hlen. unfold shuffleArray_ref, bind at 1. rewrite Harr. simpl.
  destruct (shuffleArray_perm S e Hlen) as (S' & e' & Hrun & Hperm & Hsmall).
  unfold bind. rewrite Hrun. unfold ret.
  assert (Hfresh : fresh (dom heap) <> array).
  { intros Heq. apply (is_fresh (dom heap)). rewrite Heq. by apply elem_of_dom. }
  exists (fresh (dom heap)), (<[fresh (dom heap) := S']> heap), e', S'.
  repeat split; try done.
  - apply lookup_insert_eq.
  - by apply Permutation_length.
  - by rewrite lookup_insert_ne.
  - intros l Hl. by rewrite lookup_insert_ne.
Qed.

Lemma shuffleArray_permutation_witness :
  ({[ 3%nat := ["Ana"; "Bea"; "Cid"] ]} : gmap nat (list string)) !! 3%nat
  = Some ["Ana"; "Bea"; "Cid"]
  /\ Z.of_nat (length ["Ana"; "Bea"; "Cid"]) <= MAX_ARRAY_LENGTH
  /\ exists shuffled heap' e' S',
      shuffleArray_ref 3 ({[ 3%nat := ["Ana"; "Bea"; "Cid"] ]} : gmap nat (list string))
        (fun _ => {| crypto := Rejected; random_mantissa := 2 ^ 52; random_scale := 0 |})
      = Some ((shuffled, heap'), e')
      /\ S' ≡ₚ ["Ana"; "Bea"; "Cid"]
      /\ heap' !! 3%nat = Some ["Ana"; "Bea"; "Cid"].
Proof.
  assert (H1 : ({[ 3%nat := ["Ana"; "Bea"; "Cid"] ]} : gmap nat (list string)) !! 3%nat
               = Some ["Ana"; "Bea"; "Cid"]) by reflexivity.
  assert (H2 : Z.of_nat (length ["Ana"; "Bea"; "Cid"]) <= MAX_ARRAY_LENGTH)
    by (vm_compute; discriminate).
  split; [exact H1|]. split; [exact H2|].
  destruct (shuffleArray_permutation _ 3%nat _
              (fun _ => {| crypto := Rejected; random_mantissa := 2 ^ 52; random_scale := 0 |})
              H1 H2)
    as (shuffled & heap' & e' & S' & Hrun & _ & _ & Hperm & _ & _ & Hkeep & _).
  exists shuffled, heap', e', S'. auto.
Defined.

(** C4. [selectUniqueIndices(count, max, exclude)] returns pairwise distinct
    integers of [[0, max)], none of them in [exclude]; exactly [count] of
    them when the pool of eligible indices is large enough, and as many as
    the pool holds otherwise. *)
Theorem selectUniqueIndices_spec (count max : Z) (exclude : list Z) (e : Entropy) :
  0 <= count ->
  0 < max <= MAX_ARRAY_LENGTH ->
  exists indices e',
    selectUniqueIndices count max exclude e = Some (indices, e')
    /\ NoDup indices
    /\ (forall i, i ∈ indices -> 0 <= i < max /\ (i ∉ exclude))
    /\ (count <= Z.of_nat (length (pool max exclude)) -> Z.of_nat (length indices) = count)
    /\ (Z.of_nat (length (pool max exclude)) < count ->
        length indices = length (pool max exclude)).
Proof.
  intros Hcount Hmax.
  destruct (selectUniqueIndices_run count max exclude e)
    as (indices & e' & Hrun & Hnd & Hsub & Hlen); [lia|].
  exists indices, e'. repeat split; try done.
  - apply (pool_elem max exclude i). by apply Hsub.
  - apply (pool_elem max exclude i). by apply Hsub.
  - apply (pool_elem max exclude i). by apply Hsub.
  - lia.
  - lia.
Qed.

Lemma selectUniqueIndices_spec_witness :
  0 <= 2 /\ 0 < 5 <= MAX_ARRAY_LENGTH
  /\ exists indices e',
      selectUniqueIndices 2 5 [1]
        (fun _ => {| crypto := Bytes [x07; x01; x02; x03]; random_mantissa := 0;
                     random_scale := 0 |})
      = Some (indices, e')
      /\ NoDup indices.
Proof.
  assert (H1 : 0 <= 2) by lia.
  assert (H2 : 0 < 5 <= MAX_ARRAY_LENGTH) by (unfold MAX_ARRAY_LENGTH; lia).
  split; [exact H1|]. split; [exact H2|].
  destruct (selectUniqueIndices_spec 2 5 [1]
              (fun _ => {| crypto := Bytes [x07; x01; x02; x03]; random_mantissa := 0;
                           random_scale := 0 |}) H1 H2)
    as (indices & e' & Hrun & Hnd & _).
  exists indices, e'. auto.
Defined.

(** C1. For every built-in variant (each has
    [impostorCount + (hasJester ? 1 : 0) < minPlayers]) and every list of at
    least [minPlayers] players, the [playerRoles] returned by [startNewGame]
    hold exactly [impostorCount] impostor records and at most one jester
    record, a jester record only when the variant has a jester; every other
    record is a citizen; and [knowsWord] is false exactly on the impostor
    records. *)
Theorem startNewGame_roles (players : list string) (category : string)
    (variant : GameVariant) (s : Store) (e : Entropy) :
  has_mixta s ->
  minPlayers (GAME_VARIANTS variant) <= Z.of_nat (length players) <= MAX_ARRAY_LENGTH ->
  impostorCount (GAME_VARIANTS variant)
    + (if hasJester (GAME_VARIANTS variant) then 1 else 0)
    < minPlayers (GAME_VARIANTS variant)
  /\ exists r e',
       startNewGame players category variant s e = Some (r, e')
       /\ length (playerRoles r) = length players
       /\ Z.of_nat (count_role impostor (playerRoles r))
          = impostorCount (GAME_VARIANTS variant)
       /\ (count_role jester_role (playerRoles r) <= 1)%nat
       /\ ((0 < count_role jester_role (playerRoles r))%nat ->
           hasJester (GAME_VARIANTS variant) = true)
       /\ (count_role citizen (playerRoles r)
           = length players - count_role impostor (playerRoles r)
             - count_role jester_role (playerRoles r))%nat
       /\ (0 < count_role citizen (playerRoles r))%nat
       /\ (forall info, info ∈ playerRoles r ->
             (knowsWord info = false <-> role info = impostor)).
Proof.
  intros Hmixta Hlen. pose proof (variant_counts variant) as [Hic Hvc].
  split; [done|].
  destruct (startNewGame_runs players category variant s e Hmixta Hlen)
    as (r & e' & Hrun & Hasg).
  pose proof (Assignment_count_impostor _ _ _ Hasg) as Himp.
  pose proof (Assignment_count_jester _ _ _ Hasg) as Hjes.
  pose proof (count_role_total (playerRoles r)) as Htotal.
  assert (Hroles : length (playerRoles r) = length players).
  { by rewrite (asg_roles _ _ _ Hasg), length_fmap, length_seq. }
  exists r, e'. split; [done|]. split; [done|]. split; [done|].
  split; [rewrite Hjes; destruct (hasJester _); lia|].
  split; [rewrite Hjes; destruct (hasJester _); [done|lia]|].
  split; [lia|].
  split; [destruct (hasJester _); lia|].
  intros info Hin.
  destruct (Assignment_roles_elem _ _ _ _ Hasg Hin) as (index & _ & ->).
  apply role_at_knowsWord.
Qed.

Lemma startNewGame_roles_witness :
  has_mixta (initial_store working_storage)
  /\ minPlayers (GAME_VARIANTS chaos)
     <= Z.of_nat (length ["Ana"; "Bea"; "Cid"; "Dan"; "Eva"; "Fay"]) <= MAX_ARRAY_LENGTH
  /\ exists r e',
       startNewGame ["Ana"; "Bea"; "Cid"; "Dan"; "Eva"; "Fay"] "animales" chaos
                    (initial_store working_storage) sample_entropy = Some (r, e')
       /\ Z.of_nat (count_role impostor (playerRoles r)) = impostorCount (GAME_VARIANTS chaos)
       /\ (count_role jester_role (playerRoles r) <= 1)%nat.
Proof.
  assert (H1 : has_mixta (initial_store working_storage)) by (vm_compute; eauto).
  assert (H2 : minPlayers (GAME_VARIANTS chaos)
               <= Z.of_nat (length ["Ana"; "Bea"; "Cid"; "Dan"; "Eva"; "Fay"])
               <= MAX_ARRAY_LENGTH) by (vm_compute; split; discriminate).
  split; [exact H1|]. split; [exact H2|].
  destruct (startNewGame_roles ["Ana"; "Bea"; "Cid"; "Dan"; "Eva"; "Fay"] "animales" chaos
              (initial_store working_storage) sample_entropy H1 H2)
    as (_ & r & e' & Hrun & _ & Himp & Hjes & _).
  exists r, e'. auto.
Defined.

(** C2. For a variant with two impostors who know each other and at least
    [minPlayers] players, each of the two impostor records carries as
    [partnerName] the shuffled-player name at the other impostor's index,
    in both directions, and no citizen or jester record carries a
    [partnerName]. *)
Theorem startNewGame_partners (players : list string) (category : string)
    (variant : GameVariant) (s : Store) (e : Entropy) :
  impostorCount (GAME_VARIANTS variant) = 2 ->
  impostorsKnowEachOther (GAME_VARIANTS variant) = true ->
  has_mixta s ->
  minPlayers (GAME_VARIANTS variant) <= Z.of_nat (length players) <= MAX_ARRAY_LENGTH ->
  exists r e' a b infoA infoB nameA nameB,
    startNewGame players category variant s e = Some (r, e')
    /\ impostorIndices r = [a; b] /\ a <> b
    /\ shuffledPlayers r !! Z.to_nat a = Some nameA
    /\ shuffledPlayers r !! Z.to_nat b = Some nameB
    /\ playerRoles r !! Z.to_nat a = Some infoA
    /\ playerRoles r !! Z.to_nat b = Some infoB
    /\ role infoA = impostor /\ role infoB = impostor
    /\ partnerName infoA = Some nameB
    /\ partnerName infoB = Some nameA
    /\ (forall index info, playerRoles r !! index = Some info -> role info = impostor ->
          Z.of_nat index = a \/ Z.of_nat index = b)
    /\ (forall info, info ∈ playerRoles r -> role info <> impostor -> partnerName info = None).
Proof.
  intros Hcount Hknow Hmixta Hlen.
  destruct (startNewGame_runs players category variant s e Hmixta Hlen)
    as (r & e' & Hrun & Hasg).
  pose proof (asg_count _ _ _ Hasg) as Hc. rewrite Hcount in Hc.
  pose proof (asg_nodup _ _ _ Hasg) as Hnd.
  pose proof (asg_range _ _ _ Hasg) as Hrange.
  pose proof (Permutation_length (asg_perm _ _ _ Hasg)) as Hplen.
  destruct (impostorIndices r) as [|a [|b [|c rest']]] eqn:Eimp; simpl in Hc; try lia.
  assert (Hab : a <> b).
  { apply NoDup_cons in Hnd as [Hnot _]. intros ->. apply Hnot. left. }
  destruct (Hrange a ltac:(left)) as [Ha0 Ha1].
  destruct (Hrange b ltac:(right; left)) as [Hb0 Hb1].
  destruct (lookup_lt_is_Some_2 (shuffledPlayers r) (Z.to_nat a)) as [nameA HnameA]; [lia|].
  destruct (lookup_lt_is_Some_2 (shuffledPlayers r) (Z.to_nat b)) as [nameB HnameB]; [lia|].
  pose proof (Assignment_roles_lookup _ _ _ (Z.to_nat a) Hasg ltac:(lia)) as HrA.
  pose proof (Assignment_roles_lookup _ _ _ (Z.to_nat b) Hasg ltac:(lia)) as HrB.
  rewrite Eimp in HrA, HrB.
  eexists r, e', a, b, _, _, nameA, nameB.
  split; [done|]. split; [done|]. split; [done|]. split; [done|]. split; [done|].
  split; [exact HrA|]. split; [exact HrB|].
  assert (Hfa : role_at (GAME_VARIANTS variant) (shuffledPlayers r) [a; b] (jesterIndex r)
                        (Z.to_nat a)
                = {| role := impostor; knowsWord := false; partnerName := Some nameB |}).
  { unfold role_at. rewrite Z2Nat.id by lia.
    rewrite bool_decide_eq_true_2 by left.
    rewrite Hknow, Hcount. simpl.
    rewrite (bool_decide_eq_false_2 (a <> a)) by tauto.
    rewrite (bool_decide_eq_true_2 (b <> a)) by done.
    unfold at_index. rewrite decide_True by lia. by rewrite HnameB. }
  assert (Hfb : role_at (GAME_VARIANTS variant) (shuffledPlayers r) [a; b] (jesterIndex r)
                        (Z.to_nat b)
                = {| role := impostor; knowsWord := false; partnerName := Some nameA |}).
  { unfold role_at. rewrite Z2Nat.id by lia.
    rewrite bool_decide_eq_true_2 by (right; left).
    rewrite Hknow, Hcount. simpl.
    rewrite (bool_decide_eq_true_2 (a <> b)) by done.
    unfold at_index. rewrite decide_True by lia. by rewrite HnameA. }
  rewrite Hfa, Hfb. repeat split.
  - intros index info Hlook Hrole.
    apply lookup_lt_Some in Hlook as Hlt.
    rewrite (asg_roles _ _ _ Hasg), length_fmap, length_seq in Hlt.
    rewrite (Assignment_roles_lookup _ _ _ index Hasg Hlt) in Hlook.
    injection Hlook as <-. apply role_at_impostor in Hrole. rewrite Eimp in Hrole.
    apply elem_of_cons in Hrole as [Hi|Hi]; [by left|].
    apply list_elem_of_singleton in Hi. by right.
  - intros info Hin Hrole.
    destruct (Assignment_roles_elem _ _ _ _ Hasg Hin) as (index & _ & ->).
    by apply role_at_partner_other.
Qed.

Lemma startNewGame_partners_witness :
  impostorCount (GAME_VARIANTS accomplices) = 2
  /\ impostorsKnowEachOther (GAME_VARIANTS accomplices) = true
  /\ has_mixta (initial_store working_storage)
  /\ minPlayers (GAME_VARIANTS accomplices)
     <= Z.of_nat (length ["Ana"; "Bea"; "Cid"; "Dan"; "Eva"]) <= MAX_ARRAY_LENGTH
  /\ exists r e' a b,
       startNewGame ["Ana"; "Bea"; "Cid"; "Dan"; "Eva"] "comida" accomplices
                    (initial_store working_storage) sample_entropy = Some (r, e')
       /\ impostorIndices r = [a; b] /\ a <> b.
Proof.
  assert (H1 : impostorCount (GAME_VARIANTS accomplices) = 2) by reflexivity.
  assert (H2 : impostorsKnowEachOther (GAME_VARIANTS accomplices) = true) by reflexivity.
  assert (H3 : has_mixta (initial_store working_storage)) by (vm_compute; eauto).
  assert (H4 : minPlayers (GAME_VARIANTS accomplices)
               <= Z.of_nat (length ["Ana"; "Bea"; "Cid"; "Dan"; "Eva"])
               <= MAX_ARRAY_LENGTH) by (vm_compute; split; discriminate).
  split; [exact H1|]. split; [exact H2|]. split; [exact H3|]. split; [exact H4|].
  destruct (startNewGame_partners ["Ana"; "Bea"; "Cid"; "Dan"; "Eva"] "comida" accomplices
              (initial_store working_storage) sample_entropy H1 H2 H3 H4)
    as (r & e' & a & b & _ & _ & _ & _ & Hrun & Himp & Hab & _).
  exists r, e', a, b. auto.
Defined.
(** C6, at an input where the invariant is lost. The freshly initialised
    store has it. [DEFAULT_CATEGORIES] has no category ["constructor"], but
    [DEFAULT_CATEGORIES["constructor"]] is the function that every object
    inherits, so [resetCategoryToDefault("constructor")] does not return
    early: it stores the copy [{}] under that key and recomputes [mixta].
    The new category has no [words], [flatMap] puts [undefined] in its
    place, and [mixta] ends up with 299 entries where the other categories
    hold 298 words. [updateCategoryMeta("constructor", {name: "X"})] goes
    wrong the same way: it adds a category without a word list. *)
Theorem mixta_invariant_inherited_key :
  let s0 := initial_store working_storage in
  let s := resetCategoryToDefault "constructor" s0 in
  let s' := updateCategoryMeta "constructor"
              {| newName := Some (Some "X"); newEmoji := None |} s0 in
  store_inv s0
  /\ mixta_words s0 = Some (concat (other_word_lists s0))
  /\ prop_get "constructor" DEFAULT_CATEGORIES = None
  /\ present "constructor" DEFAULT_CATEGORIES plain = Some (Member "constructor")
  /\ (exists l, prop_get "constructor" (CATEGORIES s) = Some l
                /\ objects (heap s) !! l = Some empty_object)
  /\ length (concat (other_word_lists s)) = 298%nat
  /\ mixta_words s = Some (concat (other_word_lists s) ++ [None])
  /\ ~ store_inv s
  /\ (exists l, prop_get "constructor" (CATEGORIES s') = Some l
                /\ objects (heap s') !! l
                   = Some {| emoji := None; name := Some "X"; words := None;
                             isCustom := None |})
  /\ words_in "constructor" s' = None
  /\ ~ store_inv s'.
Proof.
  cbv zeta. split; [vm_compute; reflexivity|]. split; [vm_compute; reflexivity|].
  split; [vm_compute; reflexivity|]. split; [vm_compute; reflexivity|].
  split; [eexists; split; vm_compute; reflexivity|].
  split; [vm_compute; reflexivity|]. split; [vm_compute; reflexivity|].
  split; [intros Hinv; vm_compute in Hinv; discriminate|].
  split; [eexists; split; vm_compute; reflexivity|].
  split; [vm_compute; reflexivity|].
  intros Hinv. vm_compute in Hinv. discriminate.
Qed.

(** C7, at an input where [addWordToCategory] does not do nothing for an
    unknown key. The fresh store has no category ["constructor"], but
    [CATEGORIES["constructor"]] is the inherited function, which passes the
    guard; it has no [words], and [undefined.includes(word)] throws: the
    promise is rejected with a [TypeError]. For the key [mixta], and for an
    unknown key that names nothing inherited, the call changes nothing. *)
Theorem addWordToCategory_inherited_key :
  let s := initial_store working_storage in
  store_inv s
  /\ prop_get "constructor" (CATEGORIES s) = None
  /\ words_in "constructor" s = None
  /\ present "constructor" (CATEGORIES s) (prototype s) = Some (Member "constructor")
  /\ value_array (heap s) (Member "constructor") = None
  /\ addWordToCategory "constructor" "x" s = None
  /\ unknown "juegos" s
  /\ addWordToCategory "juegos" "x" s = Some s
  /\ addWordToCategory "mixta" "x" s = Some s.
Proof.
  cbv zeta. do 8 (split; [vm_compute; reflexivity|]). vm_compute. reflexivity.
Qed.

(** C8, at the inputs where [isCategoryModified] departs from its
    specification. On the freshly initialised store,
    [addWordToCategory("comida", "Mole")] adds a word that the shipped list
    of [comida] does not contain; the word list of [comida] is then the
    shipped one followed by ["Mole"], and yet [isCategoryModified("comida")]
    returns [false]: [CATEGORIES.comida] and [DEFAULT_CATEGORIES.comida] are
    one object, so the default grew too. And [DEFAULT_CATEGORIES] has no
    category ["toString"], yet [isCategoryModified("toString")] returns
    [false]: both objects inherit the same function under that key, which
    is compared with itself. The other cases hold: [mixta] is never
    modified, and a key without a default that names no member of
    [Object.prototype] always is. *)
Theorem isCategoryModified_shared_default :
  let s0 := initial_store working_storage in
  (exists s shipped,
     addWordToCategory "comida" "Mole" s0 = Some s
     /\ shipped_words "comida" = Some shipped
     /\ ("Mole" ∉ shipped)
     /\ words_in "comida" s = Some (Some <$> shipped ++ ["Mole"])
     /\ isCategoryModified "comida" s = Some false
     /\ prop_get "comida" (CATEGORIES s) = prop_get "comida" DEFAULT_CATEGORIES)
  /\ prop_get "toString" DEFAULT_CATEGORIES = None
  /\ prop_get "toString" (CATEGORIES s0) = None
  /\ isCategoryModified "toString" s0 = Some false
  /\ (forall s, isCategoryModified "mixta" s = Some false)
  /\ (forall key s, key <> "mixta" ->
        prop_get key DEFAULT_CATEGORIES = None ->
        key ∉ Object_prototype ->
        isCategoryModified key s = Some true).
Proof.
  cbv zeta. split; [|split; [|split; [|split; [|split]]]].
  - eexists _, _. split; [vm_compute; reflexivity|]. split; [vm_compute; reflexivity|].
    split; [|do 2 (split; [vm_compute; reflexivity|]); vm_compute; reflexivity].
    intros Hin. apply (bool_decide_eq_true_2 _) in Hin. vm_compute in Hin. discriminate.
  - vm_compute. reflexivity.
  - vm_compute. reflexivity.
  - vm_compute. reflexivity.
  - done.
  - intros key s Hkey Hnone Hmember. unfold isCategoryModified, present, get_property.
    rewrite decide_False, Hnone by done.
    rewrite (bool_decide_eq_false_2 _ Hmember).
    by repeat case_decide.
Qed.



(** C10 fails as it stands: a stored object that passes the three shape
    checks is returned as it is, whatever else it holds. Here the stored
    [selectedVariant] is no variant id and [jesterIndex] is a string. *)
Lemma loadGameState_returns_foreign_fields :
  (loadGameState foreign_storage).1
  = JObject [("selectedVariant", JString "bogus"); ("jesterIndex", JString "none")]
  /\ conforms_to_GameState (loadGameState foreign_storage).1 = false.
Proof. split; vm_compute; reflexivity. Qed.

(** C10, amended. [loadGameState] never throws. It returns either [{}] or
    the parsed stored value, and then only if that value passes
    [isValidGameState]; in what it returns, [players], when present, is an
    array of strings, and [selectedCategory] and [selectedVariant], when
    present, are strings. Nothing else is checked. When the stored text does
    not parse or fails the check, the result is [{}] and the entry is
    removed (if the removal completes). *)
Theorem loadGameState_validated (st : AsyncStorage) :
  ((loadGameState st).1 = JObject []
   \/ (outcomes st 0%nat = Completes
       /\ items st !! STORAGE_KEY = Some (JsonText (loadGameState st).1)
       /\ isValidGameState (loadGameState st).1 = true
       /\ items (loadGameState st).2 = items st))
  /\ (forall v, json_get "players" (loadGameState st).1 = Some v ->
        exists names, v = JArray (JString <$> names))
  /\ (forall v, json_get "selectedCategory" (loadGameState st).1 = Some v ->
        exists s, v = JString s)
  /\ (forall v, json_get "selectedVariant" (loadGameState st).1 = Some v ->
        exists s, v = JString s)
  /\ (forall text,
        outcomes st 0%nat = Completes ->
        items st !! STORAGE_KEY = Some text ->
        (JSON_parse text = None
         \/ exists parsed, JSON_parse text = Some parsed /\ isValidGameState parsed = false) ->
        (loadGameState st).1 = JObject []
        /\ (outcomes st 1%nat = Completes -> items (loadGameState st).2 !! STORAGE_KEY = None)).
Proof.
  assert (Hcases :
    (loadGameState st).1 = JObject []
    \/ (outcomes st 0%nat = Completes
        /\ items st !! STORAGE_KEY = Some (JsonText (loadGameState st).1)
        /\ isValidGameState (loadGameState st).1 = true
        /\ items (loadGameState st).2 = items st)).
  { unfold loadGameState, safeStorageGet.
    destruct (outcomes st 0%nat) eqn:Hout; [|by left..].
    destruct (items st !! STORAGE_KEY) as [[text|parsed]|] eqn:Hitem; cbn.
    - left. by destruct (bool_decide (text = "")).
    - destruct (isValidGameState parsed) eqn:Hvalid; cbn; [by right|by left].
    - by left. }
  split; [exact Hcases|].
  assert (Hshape : isValidGameState (loadGameState st).1 = true).
  { destruct Hcases as [->|(_ & _ & Hvalid & _)]; [reflexivity|exact Hvalid]. }
  apply isValidGameState_shape in Hshape as (Hp & Hc & Hv).
  split; [exact Hp|]. split; [exact Hc|]. split; [exact Hv|].
  intros text Hout Hitem Hbad. unfold loadGameState, safeStorageGet.
  rewrite Hout, Hitem. unfold safeJsonParse.
  assert (Hnone : (if is_empty_text text then None
                   else match JSON_parse text with
                        | Some parsed => if negb (isValidGameState parsed) then None
                                         else Some parsed
                        | None => None
                        end) = None).
  { destruct (is_empty_text text); [done|].
    destruct Hbad as [->|(parsed & -> & ->)]; done. }
  rewrite Hnone. split; [done|]. cbn. intros Hrem. unfold safeStorageRemove. cbn.
  rewrite Hrem. cbn. apply lookup_delete_eq.
Qed.

Lemma loadGameState_validated_witness :
  outcomes {| items := {[ STORAGE_KEY := Unparseable "not json{" ]};
              outcomes := fun _ => Completes |} 0%nat = Completes
  /\ (loadGameState {| items := {[ STORAGE_KEY := Unparseable "not json{" ]};
                       outcomes := fun _ => Completes |}).1 = JObject []
  /\ items (loadGameState {| items := {[ STORAGE_KEY := Unparseable "not json{" ]};
                             outcomes := fun _ => Completes |}).2 !! STORAGE_KEY = None.
Proof.
  assert (H0 : outcomes {| items := {[ STORAGE_KEY := Unparseable "not json{" ]};
                           outcomes := fun _ => Completes |} 0%nat = Completes)
    by reflexivity.
  split; [exact H0|].
  destruct (proj2 (proj2 (proj2 (proj2
              (loadGameState_validated
                 {| items := {[ STORAGE_KEY := Unparseable "not json{" ]};
                    outcomes := fun _ => Completes |}))))
              (Unparseable "not json{") H0 eq_refl (or_introl eq_refl))
    as [Hempty Hremoved].
  split; [exact Hempty|]. apply Hremoved. reflexivity.
Defined.
